(** * Krypt: the [pkg/crypto] package

    A shallow embedding of [pkg/crypto/crypto.go] of raklaptudirm/krypt
    ([Sha256], [Encrypt], [Decrypt], [Pbkdf2], [RandBytes] and the two
    wrappers that read the key) and of the [logout] command, together with
    the library code these functions call:

    - [crypto/aes]      : [NewCipher], the key schedule and the block cipher;
    - [crypto/cipher]   : [NewGCM] and the [Seal]/[Open] methods of its AEAD;
    - [crypto/sha256], [crypto/hmac], [golang.org/x/crypto/pbkdf2];
    - [math/rand]       : the package-level [Seed] and [Read].

    The library code is modelled at the level of the standards it implements
    (FIPS 197, SP 800-38D, FIPS 180-4, RFC 2104) and checked against their
    test vectors below.  [EncryptWithKey], [DecryptWithKey] and the
    [logout] command reach the key root file through [pkg/dir], which is
    taken as a parameter.

    A Go [[]byte] is a [list byte]; [len] is [Z.of_nat (length _)]; a nil
    slice and an empty slice are both [[]].  Machine integers are [Z] with
    the wrap-around written out.  A Go [(value, error)] result is a pair
    whose second component is an [option error]; a Go [panic] is the
    [Panic] outcome. *)

From Stdlib Require Import String Ascii ZArith Lia Bool List.
From Stdlib.Strings Require Import Byte.
Import ListNotations.
Local Open Scope Z_scope.

(** ** Bytes and fixed-width words *)

Definition b2z (b : byte) : Z := Z.of_N (Byte.to_N b).

Definition z2b (z : Z) : byte :=
  match Byte.of_N (Z.to_N (Z.land z 0xff)) with
  | Some b => b
  | None => x00
  end.

(** [len(s)] of a slice. *)
Definition len {A} (s : list A) : Z := Z.of_nat (length s).

(** [t[i]] in a table of words, for an index in range (zero outside). *)
Definition atw (s : list Z) (i : Z) : Z := nth (Z.to_nat i) s 0.

(** [s[:n]] and [s[n:]]. *)
Definition upto {A} (n : Z) (s : list A) : list A := firstn (Z.to_nat n) s.
Definition from {A} (n : Z) (s : list A) : list A := skipn (Z.to_nat n) s.

(** Conversion to [uint32] and [uint64] keeps the low bits. *)
Definition uint32 (z : Z) : Z := Z.land z 0xffffffff.
Definition uint64 (z : Z) : Z := Z.land z 0xffffffffffffffff.

Definition xor8 (a b : byte) : byte := z2b (Z.lxor (b2z a) (b2z b)).

(** [subtle.XORBytes] / [xorBytes]: xor of the common prefix. *)
Fixpoint xorBytes (a b : list byte) : list byte :=
  match a, b with
  | x :: a', y :: b' => xor8 x y :: xorBytes a' b'
  | _, _ => []
  end.

(** [binary.BigEndian.Uint32] / [PutUint32] and the 64-bit ones, on the
    first bytes of a slice. *)
Fixpoint be_value (bs : list byte) (acc : Z) : Z :=
  match bs with
  | [] => acc
  | b :: r => be_value r (acc * 256 + b2z b)
  end.

Fixpoint be_bytes (n : nat) (v : Z) : list byte :=
  match n with
  | O => []
  | S k => z2b (Z.shiftr v (8 * Z.of_nat k)) :: be_bytes k v
  end.

Definition BigEndian_Uint32 (s : list byte) : Z := be_value (firstn 4 s) 0.
Definition BigEndian_PutUint32 (v : Z) : list byte := be_bytes 4 v.
Definition BigEndian_Uint64 (s : list byte) : Z := be_value (firstn 8 s) 0.
Definition BigEndian_PutUint64 (v : Z) : list byte := be_bytes 8 v.

Definition zeros (n : Z) : list byte := repeat x00 (Z.to_nat n).

(** ** Outcomes: Go values, errors and panics *)

Inductive error : Type :=
| KeySizeError (k : Z)      (* aes.KeySizeError: "crypto/aes: invalid key size k" *)
| errGCMTagSize             (* "cipher: incorrect tag size given to GCM" *)
| errGCMNonceSize           (* "cipher: the nonce can't have zero length, ..." *)
| errGCMBlock               (* "cipher: NewGCM requires 128-bit block cipher" *)
| errOpen                   (* "cipher: message authentication failed" *)
| ErrNoNonce.               (* "ciphertext smaller than nonce" *)

Inductive outcome (A : Type) : Type :=
| Val (a : A)
| Panic (msg : string).
Arguments Val {A} a.
Arguments Panic {A} msg.

(** ** crypto/aes *)

Module aes.

Definition BlockSize : Z := 16.

(** The field polynomial x^8 + x^4 + x^3 + x + 1 of const.go. *)
Definition poly : Z := 0x11b.

Definition xtime (b : Z) : Z :=
  let i := Z.shiftl b 1 in
  if Z.testbit i 8 then Z.lxor i poly else i.

(** Multiplication in GF(2^8) by shift and add, bit by bit of [c]. *)
Fixpoint mul_bits (n : nat) (b c : Z) : Z :=
  match n with
  | O => 0
  | S k => Z.lxor (if Z.testbit c 0 then b else 0)
                  (mul_bits k (xtime b) (Z.shiftr c 1))
  end.
Definition mul (b c : Z) : Z := mul_bits 8 b c.

Fixpoint pow (b : Z) (n : nat) : Z :=
  match n with
  | O => 1
  | S k => mul b (pow b k)
  end.

Definition rotl8 (b : Z) (n : Z) : Z :=
  Z.land (Z.lor (Z.shiftl b n) (Z.shiftr b (8 - n))) 0xff.

(** FIPS-197 5.1.1: the S-box is the affine image of the inverse. *)
Definition sbox_entry (x : Z) : Z :=
  let i := pow x 254 in
  Z.lxor (Z.lxor (Z.lxor (Z.lxor (Z.lxor i (rotl8 i 1)) (rotl8 i 2))
                         (rotl8 i 3)) (rotl8 i 4)) 0x63.

Definition indices256 : list Z := map Z.of_nat (seq 0 256).

(** The tables of const.go. *)
Definition powx : list Z :=
  Eval vm_compute in map (fun i => pow 2 (Z.to_nat i)) (map Z.of_nat (seq 0 16)).
Definition sbox0 : list Z := Eval vm_compute in map sbox_entry indices256.

Definition rotr32 (w n : Z) : Z :=
  Z.lor (Z.shiftr w n) (uint32 (Z.shiftl w (32 - n))).

Definition te0_entry (x : Z) : Z :=
  let s := atw sbox0 x in
  Z.lor (Z.lor (Z.lor (Z.shiftl (mul s 2) 24) (Z.shiftl s 16))
               (Z.shiftl s 8)) (mul s 3).
Definition te0 : list Z := Eval vm_compute in map te0_entry indices256.
Definition te1 : list Z := Eval vm_compute in map (fun w => rotr32 w 8) te0.
Definition te2 : list Z := Eval vm_compute in map (fun w => rotr32 w 16) te0.
Definition te3 : list Z := Eval vm_compute in map (fun w => rotr32 w 24) te0.

Definition byte3 (w : Z) : Z := Z.land (Z.shiftr w 24) 0xff.   (* uint8(w>>24) *)
Definition byte2 (w : Z) : Z := Z.land (Z.shiftr w 16) 0xff.
Definition byte1 (w : Z) : Z := Z.land (Z.shiftr w 8) 0xff.
Definition byte0 (w : Z) : Z := Z.land w 0xff.

(** [subw]: apply sbox0 to each byte in w. *)
Definition subw (w : Z) : Z :=
  Z.lor (Z.lor (Z.lor (Z.shiftl (atw sbox0 (byte3 w)) 24)
                      (Z.shiftl (atw sbox0 (byte2 w)) 16))
               (Z.shiftl (atw sbox0 (byte1 w)) 8))
        (atw sbox0 (byte0 w)).

(** [rotw]: rotate left by one byte. *)
Definition rotw (w : Z) : Z := Z.lor (uint32 (Z.shiftl w 8)) (Z.shiftr w 24).

(** [expandKeyGo], encryption half.  [enc] has [len(key)/4 + 7] groups of
    four words, filled for [i = nk .. len(enc)-1] from the words before. *)
Fixpoint expand_loop (steps : nat) (nk i : Z) (enc : list Z) : list Z :=
  match steps with
  | O => enc
  | S k =>
      let t := atw enc (i - 1) in
      let t := if i mod nk =? 0
               then Z.lxor (subw (rotw t)) (Z.shiftl (atw powx (i / nk - 1)) 24)
               else if (nk >? 6) && (i mod nk =? 4) then subw t
               else t in
      expand_loop k nk (i + 1) (enc ++ [Z.lxor (atw enc (i - nk)) t])
  end.

Fixpoint key_words (n : nat) (key : list byte) : list Z :=
  match n with
  | O => []
  | S k => BigEndian_Uint32 key :: key_words k (skipn 4 key)
  end.

Definition expandKeyGo (key : list byte) : list Z :=
  let nk := len key / 4 in
  let n := len key + 28 in
  expand_loop (Z.to_nat (n - nk)) nk nk (key_words (Z.to_nat nk) key).

(** One middle round of [encryptBlockGo]. *)
Definition round (xk : list Z) (k : Z) (s : Z * Z * Z * Z) : Z * Z * Z * Z :=
  let '(s0, s1, s2, s3) := s in
  let t a b c d i :=
    Z.lxor (Z.lxor (Z.lxor (Z.lxor (atw xk (k + i)) (atw te0 (byte3 a)))
                           (atw te1 (byte2 b))) (atw te2 (byte1 c)))
           (atw te3 (byte0 d)) in
  (t s0 s1 s2 s3 0, t s1 s2 s3 s0 1, t s2 s3 s0 s1 2, t s3 s0 s1 s2 3).

Fixpoint rounds (nr : nat) (xk : list Z) (k : Z) (s : Z * Z * Z * Z)
  : Z * (Z * Z * Z * Z) :=
  match nr with
  | O => (k, s)
  | S n => rounds n xk (k + 4) (round xk k s)
  end.

Definition encryptBlockGo (xk : list Z) (src : list byte) : list byte :=
  let s0 := Z.lxor (BigEndian_Uint32 src) (atw xk 0) in
  let s1 := Z.lxor (BigEndian_Uint32 (skipn 4 src)) (atw xk 1) in
  let s2 := Z.lxor (BigEndian_Uint32 (skipn 8 src)) (atw xk 2) in
  let s3 := Z.lxor (BigEndian_Uint32 (skipn 12 src)) (atw xk 3) in
  (* nr middle rounds; the last round reads what they leave in t0..t3 *)
  let nr := len xk / 4 - 2 in
  let '(k, (t0, t1, t2, t3)) := rounds (Z.to_nat nr) xk 4 (s0, s1, s2, s3) in
  let last a b c d i :=
    Z.lxor (Z.lor (Z.lor (Z.lor (Z.shiftl (atw sbox0 (byte3 a)) 24)
                                (Z.shiftl (atw sbox0 (byte2 b)) 16))
                         (Z.shiftl (atw sbox0 (byte1 c)) 8))
                  (atw sbox0 (byte0 d)))
           (atw xk (k + i)) in
  BigEndian_PutUint32 (last t0 t1 t2 t3 0) ++
  BigEndian_PutUint32 (last t1 t2 t3 t0 1) ++
  BigEndian_PutUint32 (last t2 t3 t0 t1 2) ++
  BigEndian_PutUint32 (last t3 t0 t1 t2 3).

(** What [cipher.Block] asks of a block cipher. *)
Record Block : Type := mkBlock {
  Block_BlockSize : Z;
  Block_Encrypt : list byte -> list byte
}.

(** [NewCipher]: a key of 16, 24 or 32 bytes selects AES-128, AES-192 or
    AES-256; any other length is a [KeySizeError]. *)
Definition NewCipher (key : list byte) : option Block * option error :=
  let k := len key in
  if (k =? 16) || (k =? 24) || (k =? 32)
  then (Some (mkBlock BlockSize (encryptBlockGo (expandKeyGo key))), None)
  else (None, Some (KeySizeError k)).

End aes.

(** ** crypto/subtle *)

Module subtle.

Fixpoint bytes_eqb (x y : list byte) : bool :=
  match x, y with
  | [], [] => true
  | a :: x', b :: y' => Byte.eqb a b && bytes_eqb x' y'
  | _, _ => false
  end.

(** [ConstantTimeCompare] returns 1 if the two slices have equal length
    and contents, 0 otherwise. *)
Definition ConstantTimeCompare (x y : list byte) : Z :=
  if negb (len x =? len y) then 0
  else if bytes_eqb x y then 1 else 0.

End subtle.

(** ** crypto/cipher: Galois/Counter Mode *)

Module cipher.

Import aes.

Definition gcmBlockSize : Z := 16.
Definition gcmTagSize : Z := 16.
Definition gcmMinimumTagSize : Z := 12.
Definition gcmStandardNonceSize : Z := 12.

(** An element of GF(2^128) in GCM's bit order: [low] holds the first
    eight bytes of the block, [high] the last eight. *)
Record gcmFieldElement : Type := mkFE { low : Z; high : Z }.

Definition fe_zero : gcmFieldElement := mkFE 0 0.
Definition fe_bits (y : gcmFieldElement) : Z :=
  Z.lor (Z.shiftl (low y) 64) (high y).
Definition fe_of_bits (v : Z) : gcmFieldElement :=
  mkFE (uint64 (Z.shiftr v 64)) (uint64 v).

(** The reduction constant of SP 800-38D: 11100001 followed by 120 zeros. *)
Definition gcmR : Z := Z.shiftl 0xe1 120.

(** The product of two blocks (SP 800-38D, algorithm 1): the bits of [x]
    are read from the first bit of the block on, [v] is multiplied by the
    indeterminate at each step. *)
Fixpoint mul_loop (n : nat) (i : Z) (x v z : Z) : Z :=
  match n with
  | O => z
  | S k =>
      let z' := if Z.testbit x i then Z.lxor z v else z in
      let v' := if Z.testbit v 0 then Z.lxor (Z.shiftr v 1) gcmR
                else Z.shiftr v 1 in
      mul_loop k (i - 1) x v' z'
  end.

Definition fe_mul (x y : gcmFieldElement) : gcmFieldElement :=
  fe_of_bits (mul_loop 128 127 (fe_bits x) (fe_bits y) 0).

(** The AEAD built by [NewGCM].  [hashKey] stands for the product table,
    which holds the multiples of the encryption of the zero block. *)
Record gcm : Type := mkGCM {
  cipher_ : Block;
  nonceSize : Z;
  tagSize : Z;
  hashKey : gcmFieldElement
}.

Definition block_fe (b : list byte) : gcmFieldElement :=
  mkFE (BigEndian_Uint64 b) (BigEndian_Uint64 (skipn 8 b)).

Definition newGCMWithNonceAndTagSize (c : Block) (nonceSize tagSize : Z)
  : option gcm * option error :=
  if (tagSize <? gcmMinimumTagSize) || (tagSize >? gcmBlockSize)
  then (None, Some errGCMTagSize)
  else if nonceSize <=? 0 then (None, Some errGCMNonceSize)
  else if negb (Block_BlockSize c =? gcmBlockSize) then (None, Some errGCMBlock)
  else
    let key := Block_Encrypt c (zeros gcmBlockSize) in
    (Some (mkGCM c nonceSize tagSize (block_fe key)), None).

Definition NewGCM (c : Block) : option gcm * option error :=
  newGCMWithNonceAndTagSize c gcmStandardNonceSize gcmTagSize.

Definition NonceSize (g : gcm) : Z := nonceSize g.

(** [mul] sets y to y*H. *)
Definition mul (g : gcm) (y : gcmFieldElement) : gcmFieldElement :=
  fe_mul y (hashKey g).

(** [updateBlocks] extends y with more polynomial terms from blocks. *)
Fixpoint updateBlocks_loop (n : nat) (g : gcm) (y : gcmFieldElement)
         (blocks : list byte) : gcmFieldElement :=
  match n with
  | O => y
  | S k =>
      let y1 := mkFE (Z.lxor (low y) (BigEndian_Uint64 blocks))
                     (Z.lxor (high y) (BigEndian_Uint64 (skipn 8 blocks))) in
      updateBlocks_loop k g (mul g y1) (skipn 16 blocks)
  end.

Definition updateBlocks (g : gcm) (y : gcmFieldElement) (blocks : list byte)
  : gcmFieldElement :=
  updateBlocks_loop (Z.to_nat (len blocks / gcmBlockSize)) g y blocks.

(** [update]: whole blocks first, then the rest padded with zeros. *)
Definition update (g : gcm) (y : gcmFieldElement) (data : list byte)
  : gcmFieldElement :=
  let fullBlocks := Z.shiftl (Z.shiftr (len data) 4) 4 in
  let y := updateBlocks g y (upto fullBlocks data) in
  if negb (len data =? fullBlocks)
  then let rest := from fullBlocks data in
       updateBlocks g y (rest ++ zeros (gcmBlockSize - len rest))
  else y.

(** [gcmInc32] treats the final four bytes of the counter block as a
    big-endian value and increments it. *)
Definition gcmInc32 (counterBlock : list byte) : list byte :=
  let n := len counterBlock - 4 in
  upto n counterBlock ++
  BigEndian_PutUint32 (uint32 (BigEndian_Uint32 (from n counterBlock) + 1)).

(** [counterCrypt] xors [in_] with the CTR keystream: one mask per whole
    block, and one more for a trailing partial block. *)
Fixpoint counterCrypt_loop (n : nat) (c : Block) (in_ counter : list byte)
  : list byte :=
  match n with
  | O => if len in_ >? 0 then xorBytes in_ (Block_Encrypt c counter) else []
  | S k =>
      xorBytes in_ (Block_Encrypt c counter) ++
      counterCrypt_loop k c (skipn 16 in_) (gcmInc32 counter)
  end.

Definition counterCrypt (g : gcm) (in_ counter : list byte) : list byte :=
  counterCrypt_loop (Z.to_nat (len in_ / gcmBlockSize)) (cipher_ g) in_ counter.

(** [deriveCounter]: a 96-bit nonce is used as it is, with the block
    counter set to 1; any other nonce is hashed. *)
Definition deriveCounter (g : gcm) (nonce : list byte) : list byte :=
  if len nonce =? gcmStandardNonceSize
  then nonce ++ [x00; x00; x00; x01]
  else
    let y := update g fe_zero nonce in
    let y := mkFE (low y) (Z.lxor (high y) (uint64 (uint64 (len nonce) * 8))) in
    let y := mul g y in
    BigEndian_PutUint64 (low y) ++ BigEndian_PutUint64 (high y).

(** [auth] computes GHASH(ciphertext, additionalData), masks it with
    [tagMask] and returns the tag. *)
Definition auth (g : gcm) (ciphertext additionalData tagMask : list byte)
  : list byte :=
  let y := update g fe_zero additionalData in
  let y := update g y ciphertext in
  let y := mkFE (Z.lxor (low y) (uint64 (uint64 (len additionalData) * 8)))
                (Z.lxor (high y) (uint64 (uint64 (len ciphertext) * 8))) in
  let y := mul g y in
  xorBytes (BigEndian_PutUint64 (low y) ++ BigEndian_PutUint64 (high y)) tagMask.

(** [Seal] appends the ciphertext and the tag to [dst]; it panics on a
    nonce of the wrong length and on a plaintext of more than 2^32 - 2
    blocks.  Here [dst] never has spare capacity, so the result is a new
    slice. *)
Definition Seal (g : gcm) (dst nonce plaintext data : list byte)
  : outcome (list byte) :=
  if negb (len nonce =? nonceSize g)
  then Panic "crypto/cipher: incorrect nonce length given to GCM"
  else if uint64 (len plaintext)
          >? (2 ^ 32 - 2) * uint64 (Block_BlockSize (cipher_ g))
  then Panic "crypto/cipher: message too large for GCM"
  else
    let counter := deriveCounter g nonce in
    let tagMask := Block_Encrypt (cipher_ g) counter in
    let counter := gcmInc32 counter in
    let out := counterCrypt g plaintext counter in
    let tag := auth g out data tagMask in
    Val (dst ++ out ++ upto (tagSize g) tag).

(** [Open] checks the tag at the end of [ciphertext] and, only if it is
    the expected one, decrypts what precedes it. *)
Definition Open (g : gcm) (dst nonce ciphertext data : list byte)
  : outcome (list byte * option error) :=
  if negb (len nonce =? nonceSize g)
  then Panic "crypto/cipher: incorrect nonce length given to GCM"
  else if tagSize g <? gcmMinimumTagSize
  then Panic "crypto/cipher: incorrect GCM tag size"
  else if len ciphertext <? tagSize g
  then Val ([], Some errOpen)
  else if uint64 (len ciphertext)
          >? (2 ^ 32 - 2) * uint64 (Block_BlockSize (cipher_ g))
             + uint64 (tagSize g)
  then Val ([], Some errOpen)
  else
    let tag := from (len ciphertext - tagSize g) ciphertext in
    let ciphertext := upto (len ciphertext - tagSize g) ciphertext in
    let counter := deriveCounter g nonce in
    let tagMask := Block_Encrypt (cipher_ g) counter in
    let counter := gcmInc32 counter in
    let expectedTag := auth g ciphertext data tagMask in
    if negb (subtle.ConstantTimeCompare (upto (tagSize g) expectedTag) tag =? 1)
    then Val ([], Some errOpen)
    else Val (dst ++ counterCrypt g ciphertext counter, None).

End cipher.

(** ** crypto/sha256 *)

Module sha256.

Definition Size : Z := 32.
Definition BlockSize : Z := 64.
Definition chunk : Z := 64.

Definition primes64 : list Z :=
  [2; 3; 5; 7; 11; 13; 17; 19; 23; 29; 31; 37; 41; 43; 47; 53;
   59; 61; 67; 71; 73; 79; 83; 89; 97; 101; 103; 107; 109; 113; 127; 131;
   137; 139; 149; 151; 157; 163; 167; 173; 179; 181; 191; 193; 197; 199;
   211; 223; 227; 229; 233; 239; 241; 251; 257; 263; 269; 271; 277; 281;
   283; 293; 307; 311].

(** Integer cube root, one bit at a time from bit [n-1] down. *)
Fixpoint icbrt (n : nat) (x r : Z) : Z :=
  match n with
  | O => r
  | S k =>
      let c := r + 2 ^ Z.of_nat k in
      icbrt k x (if c * c * c <=? x then c else r)
  end.

(** The constants of sha256block.go and sha256.go: the first 32 bits of
    the fractional parts of the cube roots of the first 64 primes, and of
    the square roots of the first 8. *)
Definition _K : list Z :=
  Eval vm_compute in map (fun p => uint32 (icbrt 36 (p * 2 ^ 96) 0)) primes64.
Definition init : list Z :=
  Eval vm_compute in map (fun p => uint32 (Z.sqrt (p * 2 ^ 64))) (firstn 8 primes64).

(** [bits.RotateLeft32(x, -n)]. *)
Definition rotr (x n : Z) : Z :=
  Z.lor (Z.shiftr x n) (uint32 (Z.shiftl x (32 - n))).

Definition lnot32 (x : Z) : Z := Z.lxor x 0xffffffff.

(** The first sixteen words of the schedule are the block itself. *)
Fixpoint block_words (n : nat) (p : list byte) : list Z :=
  match n with
  | O => []
  | S k => BigEndian_Uint32 p :: block_words k (skipn 4 p)
  end.

(** The next words, from a window [win] of the sixteen before. *)
Fixpoint schedule (n : nat) (win : list Z) : list Z :=
  match n with
  | O => []
  | S k =>
      let v1 := nth 14 win 0 in
      let t1 := Z.lxor (Z.lxor (rotr v1 17) (rotr v1 19)) (Z.shiftr v1 10) in
      let v2 := nth 1 win 0 in
      let t2 := Z.lxor (Z.lxor (rotr v2 7) (rotr v2 18)) (Z.shiftr v2 3) in
      let wi := uint32 (t1 + nth 9 win 0 + t2 + nth 0 win 0) in
      wi :: schedule k (tl win ++ [wi])
  end.

Record regs : Type := mkRegs { ra : Z; rb : Z; rc : Z; rd : Z;
                               re : Z; rf : Z; rg : Z; rh : Z }.

Definition step (r : regs) (kw : Z * Z) : regs :=
  let '(mkRegs a b c d e f g h) := r in
  let t1 := h + Z.lxor (Z.lxor (rotr e 6) (rotr e 11)) (rotr e 25)
              + Z.lxor (Z.land e f) (Z.land (lnot32 e) g)
              + fst kw + snd kw in
  let t2 := Z.lxor (Z.lxor (rotr a 2) (rotr a 13)) (rotr a 22)
            + Z.lxor (Z.lxor (Z.land a b) (Z.land a c)) (Z.land b c) in
  mkRegs (uint32 (t1 + t2)) a b c (uint32 (d + t1)) e f g.

Definition add_regs (x y : regs) : regs :=
  mkRegs (uint32 (ra x + ra y)) (uint32 (rb x + rb y))
         (uint32 (rc x + rc y)) (uint32 (rd x + rd y))
         (uint32 (re x + re y)) (uint32 (rf x + rf y))
         (uint32 (rg x + rg y)) (uint32 (rh x + rh y)).

(** [blockGeneric], over the [n] whole chunks at the front of [p]. *)
Fixpoint blockGeneric (n : nat) (h : regs) (p : list byte) : regs :=
  match n with
  | O => h
  | S k =>
      let w16 := block_words 16 p in
      let w := w16 ++ schedule 48 w16 in
      let r := fold_left step (combine _K w) h in
      blockGeneric k (add_regs h r) (skipn 64 p)
  end.

(** The padding [checkSum] writes after a message of [l] bytes: 0x80,
    zeros up to 56 modulo 64, and the length in bits. *)
Definition padding (l : Z) : list byte :=
  let m := l mod 64 in
  let n := if m <? 56 then 56 - m else 64 + 56 - m in
  x80 :: zeros (n - 1) ++ BigEndian_PutUint64 (uint64 (Z.shiftl l 3)).

Definition regs_of (l : list Z) : regs :=
  mkRegs (nth 0 l 0) (nth 1 l 0) (nth 2 l 0) (nth 3 l 0)
         (nth 4 l 0) (nth 5 l 0) (nth 6 l 0) (nth 7 l 0).

Definition digest_bytes (r : regs) : list byte :=
  BigEndian_PutUint32 (ra r) ++ BigEndian_PutUint32 (rb r) ++
  BigEndian_PutUint32 (rc r) ++ BigEndian_PutUint32 (rd r) ++
  BigEndian_PutUint32 (re r) ++ BigEndian_PutUint32 (rf r) ++
  BigEndian_PutUint32 (rg r) ++ BigEndian_PutUint32 (rh r).

(** [Sum256] returns the SHA256 checksum of the data. *)
Definition Sum256 (data : list byte) : list byte :=
  let p := data ++ padding (len data) in
  digest_bytes (blockGeneric (Z.to_nat (len p / chunk)) (regs_of init) p).

End sha256.

(** ** hash.Hash, as far as hmac and pbkdf2 use it

    A [hash.Hash] accumulates what is written to it; [Sum] is a function
    of the bytes written since the last [Reset]. *)

Record Hash : Type := mkHash {
  Hash_Size : Z;
  Hash_BlockSize : Z;
  Hash_Sum : list byte -> list byte
}.

(** [sha256.New]. *)
Definition sha256_New : Hash := mkHash sha256.Size sha256.BlockSize sha256.Sum256.

(** ** crypto/hmac *)

Module hmac.

Definition pad (blocksize : Z) (key : list byte) (c : byte) : list byte :=
  map (fun b => xor8 b c) (upto blocksize (key ++ zeros (blocksize - len key))).

(** [New(h, key)] followed by writes of [msg] and a [Sum(nil)]: a key
    longer than a block is hashed first; the inner hash runs over
    [ipad ++ msg], the outer one over [opad] and the inner sum. *)
Definition Sum (h : Hash) (key msg : list byte) : list byte :=
  let blocksize := Hash_BlockSize h in
  let key := if len key >? blocksize then Hash_Sum h key else key in
  let ipad := pad blocksize key x36 in
  let opad := pad blocksize key x5c in
  Hash_Sum h (opad ++ Hash_Sum h (ipad ++ msg)).

End hmac.

(** ** golang.org/x/crypto/pbkdf2 *)

Module pbkdf2.

(** The inner loop [for n := 2; n <= iter; n++]: [U] is the last PRF
    output, [T] the block of [dk] being accumulated in place. *)
Fixpoint inner (n : nat) (prf : list byte -> list byte) (U T : list byte)
  : list byte * list byte :=
  match n with
  | O => (U, T)
  | S k => let U' := prf U in inner k prf U' (xorBytes T U')
  end.

(** The outer loop [for block := 1; block <= numBlocks; block++]. *)
Fixpoint blocks (n : nat) (prf : list byte -> list byte) (salt : list byte)
         (iter block : Z) (dk : list byte) : list byte :=
  match n with
  | O => dk
  | S k =>
      let buf := [z2b (Z.shiftr block 24); z2b (Z.shiftr block 16);
                  z2b (Z.shiftr block 8); z2b block] in
      let T := prf (salt ++ buf) in
      let '(_, T) := inner (Z.to_nat (iter - 1)) prf T T in
      blocks k prf salt iter (block + 1) (dk ++ T)
  end.

(** [Key] derives a key of [keyLen] bytes.  [dk] is made with capacity
    [numBlocks*hashLen], which the loop fills; the final [dk[:keyLen]]
    is checked against that capacity. *)
Definition Key (password salt : list byte) (iter keyLen : Z) (h : Hash)
  : outcome (list byte) :=
  let prf := hmac.Sum h password in
  let hashLen := Hash_Size h in
  let numBlocks := Z.quot (keyLen + hashLen - 1) hashLen in
  if numBlocks * hashLen <? 0
  then Panic "runtime error: makeslice: cap out of range"
  else
    let dk := blocks (Z.to_nat numBlocks) prf salt iter 1 [] in
    if (keyLen <? 0) || (numBlocks * hashLen <? keyLen)
    then Panic "runtime error: slice bounds out of range"
    else Val (upto keyLen dk).

End pbkdf2.

(** ** math/rand *)

Module rand.

(** The [Source] interface: a generator of non-negative 63-bit values
    that can be seeded.  The package-level generator is one such source
    behind a lock; its additive lagged-Fibonacci tables are not part of
    this development, which holds for every instance. *)
Class Source (S : Type) : Type := {
  Int63 : S -> Z * S;
  Seed : Z -> S -> S
}.

(** A [Rand]: the source, and the bytes left over from the last value
    drawn by [Read]. *)
Record Rand (S : Type) : Type := mkRand {
  src : S;
  readVal : Z;
  readPos : Z
}.
Arguments mkRand {S} src readVal readPos.
Arguments src {S} r.
Arguments readVal {S} r.
Arguments readPos {S} r.

Section WithSource.
Context {S : Type} `{Source S}.

(** The [Seed] method of [Rand]: seeds the source and forgets the left-over bytes. *)
Definition Rand_Seed (seed : Z) (r : Rand S) : Rand S :=
  mkRand (Seed seed (src r)) (readVal r) 0.

(** [read]: every position of [p] is overwritten, seven bytes being
    taken from each value drawn. *)
Fixpoint read (p : list byte) (s : S) (val pos : Z)
  : list byte * (S * Z * Z) :=
  match p with
  | [] => ([], (s, val, pos))
  | _ :: p' =>
      let '(s, val, pos) :=
        if pos =? 0 then let (v, s') := Int63 s in (s', v, 7)
        else (s, val, pos) in
      let b := z2b val in
      let '(rest, st) := read p' s (Z.shiftr val 8) (pos - 1) in
      (b :: rest, st)
  end.

Definition Rand_Read (r : Rand S) (p : list byte) : list byte * Rand S :=
  let '(p', (s, val, pos)) := read p (src r) (readVal r) (readPos r) in
  (p', mkRand s val pos).

End WithSource.

End rand.

(** ** pkg/dir and pkg/term, as [pkg/crypto] and [cmd] call them

    Neither package is among the sources; what is used of them is taken as
    a parameter: a store [FS] of the key root file with the three functions
    called on it.  [Key] returns the key and an error, [KeyExists] a
    boolean, [WriteKey] replaces the stored key (its result is discarded by
    its one caller).  An error of [pkg/dir] is known by its message only. *)

Module dir.

Class Store (FS : Type) : Type := {
  Key : FS -> list byte * option string;
  KeyExists : FS -> bool;
  WriteKey : list byte -> FS -> FS
}.

End dir.

(** ** pkg/crypto *)

Module crypto.

Definition nil_deref : string :=
  "runtime error: invalid memory address or nil pointer dereference".

Section WithSource.
Context {S : Type} `{rand.Source S}.

(** What the package shares between calls: the [sync.Once] guarding the
    seeding, the state of math/rand's package-level generator, and the
    reading [time.Now().UnixNano()] gives when the seeding runs. *)
Record World : Type := mkWorld {
  setSeed : bool;
  globalRand : rand.Rand S;
  clock : Z
}.

(** Computations over the world that may panic. *)
Definition M (A : Type) : Type := World -> outcome (A * World).

Definition ret {A} (a : A) : M A := fun w => Val (a, w).
Definition bind {A B} (c : M A) (k : A -> M B) : M B :=
  fun w => match c w with
           | Val (a, w') => k a w'
           | Panic m => Panic m
           end.
Definition lift {A} (c : outcome A) : M A :=
  fun w => match c with
           | Val a => Val (a, w)
           | Panic m => Panic m
           end.

Local Notation "x <- c ;; k" := (bind c (fun x => k))
  (at level 61, c at next level, right associativity).

(** [setSeed.Do(func() { rand.Seed(time.Now().UnixNano()) })] *)
Definition setSeed_Do : M unit := fun w =>
  if setSeed w then Val (tt, w)
  else Val (tt, mkWorld true (rand.Rand_Seed (clock w) (globalRand w)) (clock w)).

(** [rand.Read(b)] on the package-level generator. *)
Definition rand_Read (b : list byte) : M (list byte) := fun w =>
  let (b', r) := rand.Rand_Read (globalRand w) b in
  Val (b', mkWorld (setSeed w) r (clock w)).

(** [make([]byte, n)] *)
Definition make (n : Z) : outcome (list byte) :=
  if n <? 0 then Panic "runtime error: makeslice: len out of range"
  else Val (zeros n).

(** [RandBytes] seeds the generator on its first call, makes a slice of
    [len] bytes and fills it with random bytes. *)
Definition RandBytes (len : Z) : M (list byte) :=
  _ <- setSeed_Do ;;
  b <- lift (make len) ;;
  rand_Read b.

(** [Encrypt] encrypts src with key using the AES encryption algorithm.
    It generates a random nonce and puts it in front of the ciphertext. *)
Definition Encrypt (src key : list byte) : M (list byte * option error) :=
  match aes.NewCipher key with
  | (_, Some err) => ret ([], Some err)
  | (None, None) => lift (Panic nil_deref)
  | (Some block, None) =>
      match cipher.NewGCM block with
      | (_, Some err) => ret ([], Some err)
      | (None, None) => lift (Panic nil_deref)
      | (Some aesgcm, None) =>
          nonce <- RandBytes (cipher.NonceSize aesgcm) ;;
          enc <- lift (cipher.Seal aesgcm nonce nonce src []) ;;
          ret (enc, None)
      end
  end.

End WithSource.

(** [Decrypt] decrypts ct with key with the AES encryption algorithm.  It
    takes the nonce from the front of ct. *)
Definition Decrypt (ct key : list byte) : outcome (list byte * option error) :=
  match aes.NewCipher key with
  | (_, Some err) => Val ([], Some err)
  | (None, None) => Panic nil_deref
  | (Some block, None) =>
      match cipher.NewGCM block with
      | (_, Some err) => Val ([], Some err)
      | (None, None) => Panic nil_deref
      | (Some aesgcm, None) =>
          let nonceSize := cipher.NonceSize aesgcm in
          if len ct <? nonceSize
          then Val ([], Some ErrNoNonce)
          else
            let nonce := upto nonceSize ct in
            let ct := from nonceSize ct in
            cipher.Open aesgcm [] nonce ct []
      end
  end.

(** [Sha256] wraps [sha256.Sum256] to return a slice. *)
Definition Sha256 (data : list byte) : list byte := sha256.Sum256 data.

(** [Pbkdf2] generates an AES key from pw, using SHA-256 and the salt. *)
Definition Pbkdf2 (pw salt : list byte) : outcome (list byte) :=
  let iter := 4096 in
  let klen := 32 in
  let algo := sha256_New in
  pbkdf2.Key pw salt iter klen algo.

(** The [error] a wrapper returns: the one of [dir.Key], or the one of
    [Encrypt] or [Decrypt]. *)
Inductive wrapped_error : Type :=
| dirError (msg : string)
| cryptoError (e : error).

Section WithKey.
Context {FS : Type} `{dir.Store FS} {S : Type} `{rand.Source S}.

(** [EncryptWithKey] is a wrapper on [Encrypt] which reads the key from
    the key root file. *)
Definition EncryptWithKey (src : list byte) (fs : FS)
  : M (list byte * option wrapped_error) :=
  match dir.Key fs with
  | (_, Some err) => ret ([], Some (dirError err))
  | (key, None) =>
      bind (Encrypt src key) (fun r =>
      ret (fst r, option_map cryptoError (snd r)))
  end.

(** [DecryptWithKey] is a wrapper on [Decrypt] which reads the key from
    the key root file. *)
Definition DecryptWithKey (ct : list byte) (fs : FS)
  : outcome (list byte * option wrapped_error) :=
  match dir.Key fs with
  | (_, Some err) => Val ([], Some (dirError err))
  | (key, None) =>
      match Decrypt ct key with
      | Val (clt, err) => Val (clt, option_map cryptoError err)
      | Panic m => Panic m
      end
  end.

End WithKey.

End crypto.

(** ** cmd: the logout command *)

Module cmd.

(** What a command writes on the terminal: a line through [fmt.Println]
    or an error through [term.Errorln]. *)
Inductive event : Type :=
| Println (line : string)
| Errorln (msg : string).

Section WithStore.
Context {FS : Type} `{dir.Store FS}.

(** [logout] clears the file which stores the database key, if there is
    one; otherwise it reports that nobody is logged in. *)
Definition logout (fs : FS) (out : list event) : FS * list event :=
  let loggedIn := dir.KeyExists fs in
  if loggedIn
  then (dir.WriteKey [] fs, out ++ [Println "Logged out."])
  else (fs, out ++ [Errorln "you are not logged in."]).

End WithStore.

End cmd.

(** ** PBKDF2 as RFC 8018, section 5.2, defines it

    [DK = T_1 || T_2 || ... || T_l] cut to [dkLen] octets, where
    [l = ceil(dkLen / hLen)], [T_i = F(P, S, c, i)] and
    [F(P, S, c, i) = U_1 xor U_2 xor ... xor U_c] with
    [U_1 = PRF(P, S || INT(i))] and [U_j = PRF(P, U_{j-1})]. *)

Module RFC8018.

Section PBKDF2.

Variable PRF : list byte -> list byte -> list byte.
Variable hLen : Z.

(** Four-octet encoding of [i], most significant octet first. *)
Definition INT (i : Z) : list byte := be_bytes 4 i.

(** [U P S i j] is U_(j+1). *)
Fixpoint U (P S : list byte) (i : Z) (j : nat) : list byte :=
  match j with
  | O => PRF P (S ++ INT i)
  | Datatypes.S j' => PRF P (U P S i j')
  end.

(** [xor_U P S i j] is U_1 xor ... xor U_(j+1). *)
Fixpoint xor_U (P S : list byte) (i : Z) (j : nat) : list byte :=
  match j with
  | O => U P S i 0
  | Datatypes.S j' => xorBytes (xor_U P S i j') (U P S i j)
  end.

Definition F (P S : list byte) (c i : Z) : list byte :=
  xor_U P S i (Z.to_nat (c - 1)).

Definition PBKDF2 (P S : list byte) (c dkLen : Z) : list byte :=
  let l := (dkLen + hLen - 1) / hLen in
  upto dkLen
    (concat (map (fun i => F P S c (Z.of_nat i)) (seq 1 (Z.to_nat l)))).

End PBKDF2.

Definition HMAC_SHA256 : list byte -> list byte -> list byte :=
  hmac.Sum sha256_New.

End RFC8018.

(** ** A concrete source

    A linear congruential [Source] (the 64-bit multiplier of Knuth's
    MMIX), on which the package can be run. *)

Module lcg.

Definition next (s : Z) : Z :=
  uint64 (s * 6364136223846793005 + 1442695040888963407).

#[global] Instance source : rand.Source Z := {|
  rand.Int63 := fun s => let s' := next s in (Z.shiftr s' 1, s');
  rand.Seed := fun seed _ => uint64 seed
|}.

(** A process that has not drawn random bytes yet. *)
Definition world0 : crypto.World :=
  crypto.mkWorld false (rand.mkRand 0 0 0) 1635638400000000000.

End lcg.

(** ** A concrete key store

    The key root file as the bytes it holds: [Key] returns them, or an
    error when there are none; [KeyExists] tells whether there are any. *)

Module keyfile.

#[global] Instance store : dir.Store (list byte) := {|
  dir.Key := fun fs => match fs with
                       | [] => ([], Some "not logged in"%string)
                       | _ => (fs, None)
                       end;
  dir.KeyExists := fun fs => negb (len fs =? 0);
  dir.WriteKey := fun key _ => key
|}.

End keyfile.

(** ** Vocabulary of the statements *)

(** The key lengths [aes.NewCipher] accepts. *)
Definition valid_key_len (k : Z) : bool := (k =? 16) || (k =? 24) || (k =? 32).

(** The AEAD that [Encrypt] and [Decrypt] build from a key that
    [NewCipher] accepts. *)
Definition aesgcm_of (key : list byte) : cipher.gcm :=
  let block := aes.mkBlock 16 (aes.encryptBlockGo (aes.expandKeyGo key)) in
  cipher.mkGCM block 12 16
    (cipher.block_fe (aes.Block_Encrypt block (zeros 16))).

(** The largest plaintext [Seal] takes: 2^32 - 2 blocks of 16 bytes. *)
Definition gcm_max_plaintext : Z := (2 ^ 32 - 2) * 16.

(** What [Seal] appends to [dst]: the counter-mode ciphertext followed by
    its tag. *)
Definition gcm_body (g : cipher.gcm) (nonce plaintext data : list byte)
  : list byte :=
  let counter := cipher.deriveCounter g nonce in
  let tagMask := aes.Block_Encrypt (cipher.cipher_ g) counter in
  let counter := cipher.gcmInc32 counter in
  let out := cipher.counterCrypt g plaintext counter in
  out ++ cipher.auth g out data tagMask.

Section Draw.

Context {S : Type} `{rand.Source S}.

(** The world after [setSeed.Do]. *)
Definition seeded (w : crypto.World) : crypto.World :=
  if crypto.setSeed w then w
  else crypto.mkWorld true
         (rand.Rand_Seed (crypto.clock w) (crypto.globalRand w))
         (crypto.clock w).

(** What [RandBytes] returns, and the world it leaves, for [0 <= n]. *)
Definition drawn (n : Z) (w : crypto.World) : list byte :=
  fst (rand.Rand_Read (crypto.globalRand (seeded w)) (zeros n)).

Definition after_draw (n : Z) (w : crypto.World) : crypto.World :=
  crypto.mkWorld (crypto.setSeed (seeded w))
    (snd (rand.Rand_Read (crypto.globalRand (seeded w)) (zeros n)))
    (crypto.clock (seeded w)).

End Draw.

(** A plaintext one byte longer than GCM takes: 68,719,476,705 zero bytes. *)
Definition big_plaintext : list byte :=
  repeat x00 (Z.to_nat (gcm_max_plaintext + 1)).

Definition is_KeySizeError (e : option error) : bool :=
  match e with
  | Some (KeySizeError _) => true
  | _ => false
  end.

(** [Decrypt ct key] fails with the key-size error. *)
Definition Decrypt_key_error (ct key : list byte) : bool :=
  match crypto.Decrypt ct key with
  | Val (_, e) => is_KeySizeError e
  | Panic _ => false
  end.

(** [Encrypt src key] fails with the key-size error in the world [w]. *)
Definition Encrypt_key_error {S : Type} `{rand.Source S}
  (src key : list byte) (w : crypto.World) : bool :=
  match crypto.Encrypt src key w with
  | Val ((_, e), _) => is_KeySizeError e
  | Panic _ => false
  end.





(** Byte strings written in hexadecimal or as text. *)
Definition hex_digit (c : Ascii.ascii) : Z :=
  let n := Z.of_nat (Ascii.nat_of_ascii c) in
  if (48 <=? n) && (n <=? 57) then n - 48 else (n - 87) mod 16.

Fixpoint unhex (s : string) : list byte :=
  match s with
  | String a (String b r) => z2b (hex_digit a * 16 + hex_digit b) :: unhex r
  | _ => []
  end.

Definition bytes_of_string (s : string) : list byte :=
  map byte_of_ascii (list_ascii_of_string s).

(** [Seal] with a nil [dst] under the AEAD of a key, for the test cases. *)
Definition gcm_seal (key nonce plaintext data : list byte) : option (list byte) :=
  match aes.NewCipher key with
  | (Some block, None) =>
      match cipher.NewGCM block with
      | (Some g, None) =>
          match cipher.Seal g [] nonce plaintext data with
          | Val out => Some out
          | Panic _ => None
          end
      | _ => None
      end
  | _ => None
  end.

(** * Test vectors *)

Example aes128_fips197 :
  aes.encryptBlockGo (aes.expandKeyGo (unhex "000102030405060708090a0b0c0d0e0f"))
    (unhex "00112233445566778899aabbccddeeff")
  = unhex "69c4e0d86a7b0430d8cdb78070b4c55a".
Proof. vm_compute. reflexivity. Qed.

Example aes192_fips197 :
  aes.encryptBlockGo
    (aes.expandKeyGo (unhex "000102030405060708090a0b0c0d0e0f1011121314151617"))
    (unhex "00112233445566778899aabbccddeeff")
  = unhex "dda97ca4864cdfe06eaf70a0ec0d7191".
Proof. vm_compute. reflexivity. Qed.

Example aes256_fips197 :
  aes.encryptBlockGo
    (aes.expandKeyGo
       (unhex "000102030405060708090a0b0c0d0e0f101112131415161718191a1b1c1d1e1f"))
    (unhex "00112233445566778899aabbccddeeff")
  = unhex "8ea2b7ca516745bfeafc49904b496089".
Proof. vm_compute. reflexivity. Qed.

Example gcm_test_case_1 :
  gcm_seal (zeros 16) (zeros 12) [] []
  = Some (unhex "58e2fccefa7e3061367f1d57a4e7455a").
Proof. vm_compute. reflexivity. Qed.

Example gcm_test_case_2 :
  gcm_seal (zeros 16) (zeros 12) (zeros 16) []
  = Some (unhex "0388dace60b6a392f328c2b971b2fe78ab6e47d42cec13bdf53a67b21257bddf").
Proof. vm_compute. reflexivity. Qed.

Example gcm_test_case_4 :
  gcm_seal (unhex "feffe9928665731c6d6a8f9467308308")
    (unhex "cafebabefacedbaddecaf888")
    (unhex "d9313225f88406e5a55909c5aff5269a86a7a9531534f7da2e4c303d8a318a721c3c0c95956809532fcf0e2449a6b525b16aedf5aa0de657ba637b39")
    (unhex "feedfacedeadbeeffeedfacedeadbeefabaddad2")
  = Some (unhex "42831ec2217774244b7221b784d0d49ce3aa212f2c02a4e035c17e2329aca12e21d514b25466931c7d8f6a5aac84aa051ba30b396a0aac973d58e0915bc94fbc3221a5db94fae95ae7121a47").
Proof. vm_compute. reflexivity. Qed.

Example gcm_test_case_14 :
  gcm_seal (zeros 32) (zeros 12) (zeros 16) []
  = Some (unhex "cea7403d4d606b6e074ec5d3baf39d18d0d1c8a799996bf0265b98b5d48ab919").
Proof. vm_compute. reflexivity. Qed.

Example sha256_K_ends :
  nth 0 sha256._K 0 = 0x428a2f98 /\ nth 63 sha256._K 0 = 0xc67178f2 /\
  nth 0 sha256.init 0 = 0x6a09e667 /\ nth 7 sha256.init 0 = 0x5be0cd19.
Proof. vm_compute. repeat split. Qed.

Example sha256_empty :
  sha256.Sum256 []
  = unhex "e3b0c44298fc1c149afbf4c8996fb92427ae41e4649b934ca495991b7852b855".
Proof. vm_compute. reflexivity. Qed.

Example sha256_abc :
  sha256.Sum256 (bytes_of_string "abc")
  = unhex "ba7816bf8f01cfea414140de5dae2223b00361a396177a9cb410ff61f20015ad".
Proof. vm_compute. reflexivity. Qed.

Example sha256_56_bytes :
  sha256.Sum256 (repeat x61 56)
  = unhex "b35439a4ac6f0948b6d6f9e3c6af0f5f590ce20f1bde7090ef7970686ec6738a".
Proof. vm_compute. reflexivity. Qed.

Example hmac_sha256_long_key :
  hmac.Sum sha256_New (repeat x6b 100) (bytes_of_string "msg")
  = unhex "bd56a1782c2830e8abc6ed866a57a1230661e650b84c62f7ee3accc5fa5af491".
Proof. vm_compute. reflexivity. Qed.

Example pbkdf2_3_iterations :
  pbkdf2.Key (bytes_of_string "password") (bytes_of_string "salt") 3 32 sha256_New
  = Val (unhex "ad35240ac683febfaf3cd49d845473fbbbaa2437f5f82d5a415ae00ac76c6bfc").
Proof. vm_compute. reflexivity. Qed.

Example pbkdf2_two_blocks :
  pbkdf2.Key (bytes_of_string "password") (bytes_of_string "salt") 2 40 sha256_New
  = Val (unhex "ae4d0c95af6b46d32d0adff928f06dd02a303f8ef3c251dfd6e2d85a95474c43830651afcb5c862f").
Proof. vm_compute. reflexivity. Qed.

(** The concrete vector of the specification: under 32 zero bytes the
    envelope of "hello" opens to "hello", and with its last byte corrupted
    it is rejected. *)
Example hello_envelope :
  crypto.Encrypt (bytes_of_string "hello") (zeros 32) lcg.world0
  = Val ((unhex "a740708537f62899b6ff7bad35d6f1c720ba380abc8311fde2dce06f69fd3ea57a",
          None), after_draw 12 lcg.world0) /\
  crypto.Decrypt
    (unhex "a740708537f62899b6ff7bad35d6f1c720ba380abc8311fde2dce06f69fd3ea57a")
    (zeros 32)
  = Val (bytes_of_string "hello", None) /\
  crypto.Decrypt
    (unhex "a740708537f62899b6ff7bad35d6f1c720ba380abc8311fde2dce06f69fd3ea57b")
    (zeros 32)
  = Val ([], Some errOpen).
Proof. vm_compute. repeat split. Qed.

(** * Properties *)

(** ** Bytes *)

Lemma b2z_range (b : byte) : 0 <= b2z b < 256.
Proof.
  unfold b2z. pose proof (Byte.to_N_bounded b) as Hb.
  split; [apply N2Z.is_nonneg|].
  change 256 with (Z.of_N 256). apply N2Z.inj_lt. lia.
Qed.

Lemma z2b_b2z (b : byte) : z2b (b2z b) = b.
Proof.
  unfold z2b. pose proof (b2z_range b) as Hr.
  change 0xff with (Z.ones 8). rewrite Z.land_ones by lia.
  rewrite Z.mod_small by exact Hr.
  unfold b2z. rewrite N2Z.id, Byte.of_to_N. reflexivity.
Qed.

Lemma b2z_z2b (z : Z) : b2z (z2b z) = Z.land z 0xff.
Proof.
  unfold z2b.
  assert (Hr : 0 <= Z.land z 0xff < 256).
  { change 0xff with (Z.ones 8). rewrite Z.land_ones by lia.
    apply Z.mod_pos_bound. lia. }
  destruct (Byte.of_N (Z.to_N (Z.land z 0xff))) as [b|] eqn:E.
  - apply Byte.to_of_N in E. unfold b2z. rewrite E. apply Z2N.id. lia.
  - apply Byte.of_N_None_iff in E. lia.
Qed.

Lemma land_ff_small (z : Z) : 0 <= z < 256 -> Z.land z 0xff = z.
Proof.
  intros Hz. change 0xff with (Z.ones 8). rewrite Z.land_ones by lia.
  apply Z.mod_small. exact Hz.
Qed.

Lemma lxor_byte_range (a b : Z) :
  0 <= a < 256 -> 0 <= b < 256 -> 0 <= Z.lxor a b < 256.
Proof.
  intros Ha Hb.
  assert (Hn : 0 <= Z.lxor a b) by (apply Z.lxor_nonneg; lia).
  split; [exact Hn|].
  destruct (Z.eq_dec (Z.lxor a b) 0) as [E|E]; [lia|].
  change 256 with (2 ^ 8). apply Z.log2_lt_pow2; [lia|].
  eapply Z.le_lt_trans; [apply Z.log2_lxor; lia|].
  apply Z.max_lub_lt.
  - destruct (Z.eq_dec a 0) as [->|]; [reflexivity|].
    apply Z.log2_lt_pow2; lia.
  - destruct (Z.eq_dec b 0) as [->|]; [reflexivity|].
    apply Z.log2_lt_pow2; lia.
Qed.

Lemma xor8_involutive (a k : byte) : xor8 (xor8 a k) k = a.
Proof.
  unfold xor8. rewrite b2z_z2b.
  rewrite land_ff_small by (apply lxor_byte_range; apply b2z_range).
  rewrite Z.lxor_assoc, Z.lxor_nilpotent, Z.lxor_0_r.
  apply z2b_b2z.
Qed.

Lemma xorBytes_length (a b : list byte) :
  length (xorBytes a b) = Nat.min (length a) (length b).
Proof.
  revert b. induction a as [|x a IH]; intros [|y b]; simpl; auto.
Qed.

(** Xoring twice with the same mask gives back what the mask covered. *)
Lemma xorBytes_twice (a m : list byte) :
  xorBytes (xorBytes a m) m = firstn (length m) a.
Proof.
  revert m. induction a as [|x a IH]; intros [|y m]; simpl; auto.
  rewrite xor8_involutive, IH. reflexivity.
Qed.

Lemma xorBytes_app_l (a b m : list byte) :
  length a = length m -> xorBytes (a ++ b) m = xorBytes a m.
Proof.
  revert m. induction a as [|x a IH]; intros [|y m] Hl; simpl in *;
    try discriminate.
  - destruct b; reflexivity.
  - f_equal. apply IH. lia.
Qed.

Lemma xorBytes_firstn (a m : list byte) :
  xorBytes (firstn (length m) a) m = xorBytes a m.
Proof.
  revert m. induction a as [|x a IH]; intros [|y m]; simpl; auto.
  f_equal. apply IH.
Qed.

Lemma be_bytes_length (n : nat) (v : Z) : length (be_bytes n v) = n.
Proof. induction n; simpl; auto. Qed.

Lemma len_nonneg {A} (s : list A) : 0 <= len s.
Proof. unfold len. lia. Qed.

Lemma len_app {A} (s t : list A) : len (s ++ t) = len s + len t.
Proof. unfold len. rewrite length_app. lia. Qed.

Lemma len_zeros (n : Z) : 0 <= n -> len (zeros n) = n.
Proof. intros Hn. unfold len, zeros. rewrite repeat_length. lia. Qed.

Lemma uint64_small (z : Z) : 0 <= z < 2 ^ 64 -> uint64 z = z.
Proof.
  intros Hz. unfold uint64. change 0xffffffffffffffff with (Z.ones 64).
  rewrite Z.land_ones by lia. apply Z.mod_small. exact Hz.
Qed.

Lemma upto_app_len {A} (s t : list A) : upto (len s) (s ++ t) = s.
Proof.
  unfold upto, len. rewrite Nat2Z.id, firstn_app, Nat.sub_diag, firstn_all.
  simpl. apply app_nil_r.
Qed.

Lemma from_app_len {A} (s t : list A) : from (len s) (s ++ t) = t.
Proof.
  unfold from, len. rewrite Nat2Z.id, skipn_app, Nat.sub_diag, skipn_all.
  reflexivity.
Qed.


Lemma len_upto {A} (n : Z) (s : list A) :
  0 <= n <= len s -> len (upto n s) = n.
Proof. unfold len, upto. intros Hn. rewrite length_firstn. lia. Qed.

Lemma len_from {A} (n : Z) (s : list A) :
  0 <= n <= len s -> len (from n s) = len s - n.
Proof. unfold len, from. intros Hn. rewrite length_skipn. lia. Qed.

(** ** The AES block cipher *)

Lemma encryptBlockGo_length (xk : list Z) (src : list byte) :
  length (aes.encryptBlockGo xk src) = 16%nat.
Proof.
  unfold aes.encryptBlockGo.
  destruct (aes.rounds _ _ _ _) as [k [[[t0 t1] t2] t3]].
  unfold BigEndian_PutUint32.
  rewrite !length_app, !be_bytes_length. reflexivity.
Qed.

Lemma NewCipher_ok (key : list byte) :
  valid_key_len (len key) = true ->
  aes.NewCipher key
  = (Some (aes.mkBlock 16 (aes.encryptBlockGo (aes.expandKeyGo key))), None).
Proof. unfold aes.NewCipher, valid_key_len. intros ->. reflexivity. Qed.

Lemma NewCipher_err (key : list byte) :
  valid_key_len (len key) = false ->
  aes.NewCipher key = (None, Some (KeySizeError (len key))).
Proof. unfold aes.NewCipher, valid_key_len. intros ->. reflexivity. Qed.

Lemma NewGCM_ok (key : list byte) :
  cipher.NewGCM (aes.mkBlock 16 (aes.encryptBlockGo (aes.expandKeyGo key)))
  = (Some (aesgcm_of key), None).
Proof. reflexivity. Qed.

(** ** Counter mode and the tag *)

Lemma bytes_eqb_eq (x y : list byte) : subtle.bytes_eqb x y = true <-> x = y.
Proof.
  revert y. induction x as [|a x IH]; intros [|b y]; simpl;
    try (split; [discriminate|discriminate]); [tauto|].
  rewrite andb_true_iff, IH. split.
  - intros [Hab ->]. apply Byte.byte_dec_bl in Hab. congruence.
  - intros E. injection E as -> ->. split; [apply Byte.byte_dec_lb|]; reflexivity.
Qed.

Lemma ConstantTimeCompare_1 (x y : list byte) :
  subtle.ConstantTimeCompare x y = 1 <-> x = y.
Proof.
  unfold subtle.ConstantTimeCompare.
  destruct (Z.eqb_spec (len x) (len y)) as [El|Nl]; cbn [negb].
  - destruct (subtle.bytes_eqb x y) eqn:E.
    + apply bytes_eqb_eq in E. tauto.
    + split; [discriminate|]. intros ->.
      assert (T : subtle.bytes_eqb y y = true) by (apply bytes_eqb_eq; reflexivity).
      congruence.
  - split; [discriminate|]. intros ->. congruence.
Qed.

Lemma ConstantTimeCompare_refl (x : list byte) :
  subtle.ConstantTimeCompare x x = 1.
Proof. apply ConstantTimeCompare_1. reflexivity. Qed.

Section GCM.

Variable g : cipher.gcm.
Hypothesis block16 :
  forall x, length (aes.Block_Encrypt (cipher.cipher_ g) x) = 16%nat.

Lemma block_count_bounds (l : Z) :
  0 <= l ->
  16 * Z.of_nat (Z.to_nat (l / 16)) <= l < 16 * Z.of_nat (Z.to_nat (l / 16)) + 16.
Proof.
  intros Hl. rewrite Z2Nat.id by (apply Z.div_pos; lia).
  pose proof (Z.div_mod l 16 ltac:(lia)) as Hd.
  pose proof (Z.mod_pos_bound l 16 ltac:(lia)) as Hm. lia.
Qed.

Lemma counterCrypt_loop_length (n : nat) :
  forall in_ counter,
    16 * Z.of_nat n <= len in_ < 16 * Z.of_nat n + 16 ->
    length (cipher.counterCrypt_loop n (cipher.cipher_ g) in_ counter)
    = length in_.
Proof.
  induction n as [|n IH]; intros in_ counter Hn;
    cbn [cipher.counterCrypt_loop]; unfold len in *.
  - destruct (Z.of_nat (length in_) >? 0) eqn:E.
    + rewrite xorBytes_length, block16. lia.
    + destruct in_ as [|b r]; [reflexivity|]. exfalso.
      rewrite Z.gtb_ltb in E. apply Z.ltb_ge in E.
      rewrite length_cons in E. lia.
  - rewrite length_app, xorBytes_length, block16, IH.
    + rewrite length_skipn. lia.
    + unfold len. rewrite length_skipn. lia.
Qed.

Lemma counterCrypt_loop_twice (n : nat) :
  forall in_ counter,
    16 * Z.of_nat n <= len in_ < 16 * Z.of_nat n + 16 ->
    cipher.counterCrypt_loop n (cipher.cipher_ g)
      (cipher.counterCrypt_loop n (cipher.cipher_ g) in_ counter) counter
    = in_.
Proof.
  induction n as [|n IH]; intros in_ counter Hn;
    cbn [cipher.counterCrypt_loop]; unfold len in *.
  - destruct (Z.of_nat (length in_) >? 0) eqn:E.
    + rewrite xorBytes_length, block16.
      rewrite Nat.min_l by lia. rewrite E.
      rewrite xorBytes_twice, block16. apply firstn_all2. lia.
    + destruct in_ as [|b r]; [reflexivity|]. exfalso.
      rewrite Z.gtb_ltb in E. apply Z.ltb_ge in E.
      rewrite length_cons in E. lia.
  - set (mask := aes.Block_Encrypt (cipher.cipher_ g) counter).
    assert (Hm : length mask = 16%nat) by apply block16.
    assert (Hx : length (xorBytes in_ mask) = 16%nat)
      by (rewrite xorBytes_length; lia).
    rewrite xorBytes_app_l by lia.
    rewrite xorBytes_twice, Hm.
    rewrite skipn_app, Hx, Nat.sub_diag.
    rewrite skipn_all2 by lia. rewrite skipn_O, app_nil_l.
    rewrite IH by (unfold len; rewrite length_skipn; lia).
    apply firstn_skipn.
Qed.

Lemma counterCrypt_length (in_ counter : list byte) :
  length (cipher.counterCrypt g in_ counter) = length in_.
Proof.
  unfold cipher.counterCrypt, cipher.gcmBlockSize.
  apply counterCrypt_loop_length, block_count_bounds, len_nonneg.
Qed.

Lemma len_counterCrypt (in_ counter : list byte) :
  len (cipher.counterCrypt g in_ counter) = len in_.
Proof. unfold len. rewrite counterCrypt_length. reflexivity. Qed.

(** Counter mode is its own inverse. *)
Lemma counterCrypt_twice (in_ counter : list byte) :
  cipher.counterCrypt g (cipher.counterCrypt g in_ counter) counter = in_.
Proof.
  unfold cipher.counterCrypt at 1. rewrite len_counterCrypt.
  unfold cipher.counterCrypt, cipher.gcmBlockSize.
  apply counterCrypt_loop_twice, block_count_bounds, len_nonneg.
Qed.

Lemma auth_length (ciphertext data tagMask : list byte) :
  length tagMask = 16%nat ->
  length (cipher.auth g ciphertext data tagMask) = 16%nat.
Proof.
  intros Hm. unfold cipher.auth, BigEndian_PutUint64.
  rewrite xorBytes_length, length_app, !be_bytes_length, Hm. reflexivity.
Qed.

Hypothesis nonce12 : cipher.nonceSize g = 12.
Hypothesis tag16 : cipher.tagSize g = 16.
Hypothesis bs16 : aes.Block_BlockSize (cipher.cipher_ g) = 16.

Lemma upto_tag (ciphertext data tagMask : list byte) :
  length tagMask = 16%nat ->
  upto 16 (cipher.auth g ciphertext data tagMask)
  = cipher.auth g ciphertext data tagMask.
Proof.
  intros Hm. unfold upto. apply firstn_all2.
  rewrite auth_length by exact Hm. reflexivity.
Qed.

Lemma len_gcm_body (nonce plaintext data : list byte) :
  len (gcm_body g nonce plaintext data) = len plaintext + 16.
Proof.
  unfold gcm_body. rewrite len_app, len_counterCrypt.
  unfold len at 2. rewrite auth_length by apply block16. reflexivity.
Qed.

(** [Seal] on a 12-byte nonce and a plaintext within GCM's limit. *)
Lemma Seal_Val (dst nonce plaintext data : list byte) :
  len nonce = 12 ->
  len plaintext <= gcm_max_plaintext ->
  cipher.Seal g dst nonce plaintext data
  = Val (dst ++ gcm_body g nonce plaintext data).
Proof.
  intros Hn Hp. unfold cipher.Seal, gcm_max_plaintext in *.
  rewrite Hn, nonce12, bs16, tag16. cbn [Z.eqb Pos.eqb negb].
  pose proof (len_nonneg plaintext) as H0.
  rewrite uint64_small by lia.
  change (uint64 16) with 16.
  destruct (Z.gtb_spec (len plaintext) ((2 ^ 32 - 2) * 16)) as [Hgt|_]; [lia|].
  rewrite upto_tag by apply block16. reflexivity.
Qed.

(** Beyond the limit [Seal] panics. *)
Lemma Seal_too_large (dst nonce plaintext data : list byte) :
  len nonce = 12 ->
  gcm_max_plaintext < len plaintext < 2 ^ 63 ->
  cipher.Seal g dst nonce plaintext data
  = Panic "crypto/cipher: message too large for GCM".
Proof.
  intros Hn Hp. unfold cipher.Seal, gcm_max_plaintext in *.
  rewrite Hn, nonce12, bs16. cbn [Z.eqb Pos.eqb negb].
  rewrite uint64_small by lia.
  change (uint64 16) with 16.
  destruct (Z.gtb_spec (len plaintext) ((2 ^ 32 - 2) * 16)) as [_|Hle]; [|lia].
  reflexivity.
Qed.

(** [Open] accepts what [Seal] appended, and returns the plaintext. *)
Lemma Open_gcm_body (nonce plaintext data : list byte) :
  len nonce = 12 ->
  len plaintext <= gcm_max_plaintext ->
  cipher.Open g [] nonce (gcm_body g nonce plaintext data) data
  = Val (plaintext, None).
Proof.
  intros Hn Hp. unfold cipher.Open, gcm_max_plaintext in *.
  rewrite Hn, nonce12, bs16, tag16. cbn [Z.eqb Pos.eqb negb].
  change (16 <? cipher.gcmMinimumTagSize) with false. cbv iota.
  rewrite len_gcm_body.
  pose proof (len_nonneg plaintext) as H0.
  destruct (Z.ltb_spec (len plaintext + 16) 16) as [Hlt|_]; [lia|].
  rewrite uint64_small by lia. change (uint64 16) with 16.
  destruct (Z.gtb_spec (len plaintext + 16) ((2 ^ 32 - 2) * 16 + 16))
    as [Hgt|_]; [lia|].
  replace (len plaintext + 16 - 16) with (len plaintext) by lia.
  unfold gcm_body.
  set (counter := cipher.gcmInc32 (cipher.deriveCounter g nonce)).
  set (tagMask := aes.Block_Encrypt (cipher.cipher_ g)
                    (cipher.deriveCounter g nonce)).
  set (out := cipher.counterCrypt g plaintext counter).
  rewrite <- (len_counterCrypt plaintext counter). fold out.
  rewrite upto_app_len, from_app_len.
  rewrite upto_tag by apply block16.
  rewrite ConstantTimeCompare_refl. cbn [Z.eqb Pos.eqb negb app].
  unfold out. rewrite counterCrypt_twice. reflexivity.
Qed.


End GCM.

(** ** The random source *)

Section Random.

Context {S : Type} `{rand.Source S}.

(** [read] fills the slice it is given: the length does not change. *)
Lemma read_length (p : list byte) :
  forall s val pos, length (fst (rand.read p s val pos)) = length p.
Proof.
  induction p as [|b p IH]; intros s val pos; [reflexivity|].
  cbn [rand.read].
  destruct (pos =? 0); [destruct (rand.Int63 s) as [v s']|].
  - specialize (IH s' (Z.shiftr v 8) (7 - 1)).
    destruct (rand.read p s' (Z.shiftr v 8) (7 - 1)) as [rest st].
    cbn [fst length] in *. congruence.
  - specialize (IH s (Z.shiftr val 8) (pos - 1)).
    destruct (rand.read p s (Z.shiftr val 8) (pos - 1)) as [rest st].
    cbn [fst length] in *. congruence.
Qed.

Lemma Rand_Read_length (r : rand.Rand S) (p : list byte) :
  length (fst (rand.Rand_Read r p)) = length p.
Proof.
  unfold rand.Rand_Read.
  pose proof (read_length p (rand.src r) (rand.readVal r) (rand.readPos r)) as Hl.
  destruct (rand.read p (rand.src r) (rand.readVal r) (rand.readPos r))
    as [p' [[s val] pos]].
  exact Hl.
Qed.

Lemma RandBytes_Val (n : Z) (w : crypto.World) :
  0 <= n -> crypto.RandBytes n w = Val (drawn n w, after_draw n w).
Proof.
  intros Hn.
  unfold crypto.RandBytes, crypto.bind, crypto.setSeed_Do, crypto.lift,
    crypto.make, crypto.rand_Read, drawn, after_draw, seeded.
  destruct (Z.ltb_spec n 0) as [Hlt|_]; [lia|].
  destruct (crypto.setSeed w); cbn [crypto.globalRand crypto.setSeed crypto.clock];
    match goal with
    | |- context [rand.Rand_Read ?r ?b] => destruct (rand.Rand_Read r b)
    end; reflexivity.
Qed.


Lemma len_drawn (n : Z) (w : crypto.World) : 0 <= n -> len (drawn n w) = n.
Proof.
  intros Hn. unfold drawn, len. rewrite Rand_Read_length.
  apply len_zeros. exact Hn.
Qed.

End Random.

(** ** [Encrypt] and [Decrypt], branch by branch *)

Lemma aesgcm_block16 (key : list byte) :
  forall x,
    length (aes.Block_Encrypt (cipher.cipher_ (aesgcm_of key)) x) = 16%nat.
Proof. intros x. apply encryptBlockGo_length. Qed.

Lemma valid_key_len_cases (k : Z) :
  valid_key_len k = true <-> k = 16 \/ k = 24 \/ k = 32.
Proof. unfold valid_key_len. rewrite !orb_true_iff, !Z.eqb_eq. tauto. Qed.

Lemma Decrypt_invalid_key (ct key : list byte) :
  valid_key_len (len key) = false ->
  crypto.Decrypt ct key = Val ([], Some (KeySizeError (len key))).
Proof.
  intros Hk. unfold crypto.Decrypt. rewrite NewCipher_err by exact Hk.
  reflexivity.
Qed.

Lemma Decrypt_valid_key (ct key : list byte) :
  valid_key_len (len key) = true ->
  crypto.Decrypt ct key
  = if len ct <? 12 then Val ([], Some ErrNoNonce)
    else cipher.Open (aesgcm_of key) [] (upto 12 ct) (from 12 ct) [].
Proof.
  intros Hk. unfold crypto.Decrypt. rewrite NewCipher_ok by exact Hk.
  rewrite NewGCM_ok. reflexivity.
Qed.

Section Sealing.

Context {S : Type} `{rand.Source S}.

Lemma Encrypt_invalid_key (src key : list byte) (w : crypto.World) :
  valid_key_len (len key) = false ->
  crypto.Encrypt src key w = Val (([], Some (KeySizeError (len key))), w).
Proof.
  intros Hk. unfold crypto.Encrypt. rewrite NewCipher_err by exact Hk.
  reflexivity.
Qed.

(** With a key the cipher accepts, [Encrypt] draws twelve bytes and hands
    them to [Seal] both as [dst] and as the nonce. *)
Lemma Encrypt_valid_key (src key : list byte) (w : crypto.World) :
  valid_key_len (len key) = true ->
  crypto.Encrypt src key w
  = match cipher.Seal (aesgcm_of key) (drawn 12 w) (drawn 12 w) src [] with
    | Val enc => Val ((enc, None), after_draw 12 w)
    | Panic m => Panic m
    end.
Proof.
  intros Hk. unfold crypto.Encrypt. rewrite NewCipher_ok by exact Hk.
  rewrite NewGCM_ok. unfold crypto.bind.
  change (cipher.NonceSize (aesgcm_of key)) with 12.
  rewrite RandBytes_Val by lia. unfold crypto.lift, crypto.ret.
  destruct (cipher.Seal _ _ _ _ _); reflexivity.
Qed.

(** Within GCM's limit the envelope is the nonce followed by the sealed
    body. *)
Lemma Encrypt_Val (src key : list byte) (w : crypto.World) :
  valid_key_len (len key) = true ->
  len src <= gcm_max_plaintext ->
  crypto.Encrypt src key w
  = Val ((drawn 12 w ++ gcm_body (aesgcm_of key) (drawn 12 w) src [], None),
         after_draw 12 w).
Proof.
  intros Hk Hs. rewrite Encrypt_valid_key by exact Hk.
  rewrite (Seal_Val (aesgcm_of key) (aesgcm_block16 key)
             eq_refl eq_refl eq_refl) by (try apply len_drawn; lia).
  reflexivity.
Qed.

End Sealing.

Lemma upto_app_eq {A} (n : Z) (s t : list A) :
  len s = n -> upto n (s ++ t) = s.
Proof. intros <-. apply upto_app_len. Qed.

Lemma from_app_eq {A} (n : Z) (s t : list A) :
  len s = n -> from n (s ++ t) = t.
Proof. intros <-. apply from_app_len. Qed.

(** ** Round trip *)

Lemma len_big_plaintext : len big_plaintext = 68719476705.
Proof.
  unfold big_plaintext, len. rewrite repeat_length.
  rewrite Z2Nat.id by (unfold gcm_max_plaintext; lia).
  reflexivity.
Qed.

Section RoundTrip.

Context {S : Type} `{rand.Source S}.

Lemma Encrypt_too_large (src key : list byte) (w : crypto.World) :
  valid_key_len (len key) = true ->
  gcm_max_plaintext < len src < 2 ^ 63 ->
  crypto.Encrypt src key w = Panic "crypto/cipher: message too large for GCM".
Proof.
  intros Hk Hs. rewrite Encrypt_valid_key by exact Hk.
  rewrite (Seal_too_large (aesgcm_of key) eq_refl eq_refl)
    by (try apply len_drawn; lia).
  reflexivity.
Qed.

(** C1 (as amended).  For every key of a length the cipher accepts (16, 24
    or 32 bytes), every plaintext [p] of at most 2^36 - 32 bytes, the empty
    one included, and every state of the random source, [Encrypt p key]
    returns an envelope and no error, and [Decrypt] of that envelope under
    the same key returns exactly [p] and no error. *)
Theorem Decrypt_Encrypt (w : crypto.World) (p key : list byte) :
  valid_key_len (len key) = true ->
  len p <= gcm_max_plaintext ->
  exists enc w',
    crypto.Encrypt p key w = Val ((enc, None), w') /\
    crypto.Decrypt enc key = Val (p, None).
Proof.
  intros Hk Hp.
  exists (drawn 12 w ++ gcm_body (aesgcm_of key) (drawn 12 w) p []).
  exists (after_draw 12 w).
  split; [apply Encrypt_Val; assumption|].
  rewrite Decrypt_valid_key by exact Hk.
  assert (Hn : len (drawn 12 w) = 12) by (apply len_drawn; lia).
  rewrite len_app, Hn.
  pose proof (len_nonneg (gcm_body (aesgcm_of key) (drawn 12 w) p [])) as H0.
  destruct (Z.ltb_spec (12 + len (gcm_body (aesgcm_of key) (drawn 12 w) p [])) 12)
    as [Hlt|_]; [lia|].
  rewrite upto_app_eq, from_app_eq by exact Hn.
  apply (Open_gcm_body (aesgcm_of key) (aesgcm_block16 key) eq_refl eq_refl eq_refl);
    assumption.
Qed.

End RoundTrip.

Lemma Decrypt_Encrypt_witness :
  exists enc w',
    crypto.Encrypt (bytes_of_string "hello") (zeros 32) lcg.world0
    = Val ((enc, None), w') /\
    crypto.Decrypt enc (zeros 32) = Val (bytes_of_string "hello", None).
Proof.
  apply Decrypt_Encrypt; [reflexivity | vm_compute; discriminate].
Defined.

(** A plaintext of 2^36 - 31 bytes is not sealed: [Seal] panics, whatever
    the random source and its state, so there is no envelope for [Decrypt]
    to open. *)
Lemma Encrypt_big_plaintext_panics :
  valid_key_len (len (zeros 32)) = true /\
  len big_plaintext = 68719476705 /\
  (forall (S : Type) (source : rand.Source S) (w : crypto.World),
     crypto.Encrypt big_plaintext (zeros 32) w
     = Panic "crypto/cipher: message too large for GCM") /\
  crypto.Encrypt big_plaintext (zeros 32) lcg.world0
  = Panic "crypto/cipher: message too large for GCM".
Proof.
  assert (Hbig : gcm_max_plaintext < len big_plaintext < 2 ^ 63)
    by (rewrite len_big_plaintext; unfold gcm_max_plaintext; lia).
  split; [reflexivity|]. split; [exact len_big_plaintext|].
  split; [intros S source w|];
    (apply Encrypt_too_large; [reflexivity|exact Hbig]).
Qed.

(** ** Key sizes *)

Lemma Open_no_key_error (g : cipher.gcm) (dst nonce ct data : list byte) :
  match cipher.Open g dst nonce ct data with
  | Val (_, e) => is_KeySizeError e
  | Panic _ => false
  end = false.
Proof.
  unfold cipher.Open.
  repeat match goal with
         | |- context [if ?c then _ else _] => destruct c
         end; reflexivity.
Qed.

Lemma Decrypt_key_error_spec (ct key : list byte) :
  Decrypt_key_error ct key = negb (valid_key_len (len key)).
Proof.
  unfold Decrypt_key_error.
  destruct (valid_key_len (len key)) eqn:Hk; cbn [negb].
  - rewrite Decrypt_valid_key by exact Hk.
    destruct (len ct <? 12); [reflexivity|]. apply Open_no_key_error.
  - rewrite Decrypt_invalid_key by exact Hk. reflexivity.
Qed.

Lemma Encrypt_key_error_spec {S : Type} `{rand.Source S}
  (src key : list byte) (w : crypto.World) :
  Encrypt_key_error src key w = negb (valid_key_len (len key)).
Proof.
  unfold Encrypt_key_error.
  destruct (valid_key_len (len key)) eqn:Hk; cbn [negb].
  - rewrite Encrypt_valid_key by exact Hk.
    destruct (cipher.Seal _ _ _ _ _); reflexivity.
  - rewrite Encrypt_invalid_key by exact Hk. reflexivity.
Qed.

Lemma invalid_key_len_cases (k : Z) :
  valid_key_len k = false <-> k <> 16 /\ k <> 24 /\ k <> 32.
Proof.
  unfold valid_key_len. rewrite !orb_false_iff, !Z.eqb_neq. tauto.
Qed.

(** C3 (as amended).  [Encrypt] and [Decrypt] fail with the key-size error
    exactly when the key length is none of 16, 24 and 32 bytes: for every key
    of 32 bytes the key-size check passes, and for every key whose length is
    not 16, 24 or 32 the operation returns [KeySizeError] of that length and
    no bytes. *)
Theorem key_size_error_exactly_off_aes_sizes {S : Type} `{rand.Source S}
  (src ct key : list byte) (w : crypto.World) :
  (Encrypt_key_error src key w = true
   <-> len key <> 16 /\ len key <> 24 /\ len key <> 32) /\
  (Decrypt_key_error ct key = true
   <-> len key <> 16 /\ len key <> 24 /\ len key <> 32) /\
  (len key = 32 ->
   Encrypt_key_error src key w = false /\ Decrypt_key_error ct key = false) /\
  (len key <> 16 /\ len key <> 24 /\ len key <> 32 ->
   crypto.Encrypt src key w = Val (([], Some (KeySizeError (len key))), w) /\
   crypto.Decrypt ct key = Val ([], Some (KeySizeError (len key)))).
Proof.
  rewrite Encrypt_key_error_spec, Decrypt_key_error_spec.
  rewrite negb_true_iff, negb_false_iff, invalid_key_len_cases.
  repeat split; try tauto.
  - apply valid_key_len_cases. tauto.
  - apply valid_key_len_cases. tauto.
  - apply Encrypt_invalid_key, invalid_key_len_cases. assumption.
  - apply Decrypt_invalid_key, invalid_key_len_cases. assumption.
Qed.

(** A key of 16 bytes is not a key of 32 bytes, and neither operation
    reports a key-size error for it: [Decrypt] goes on to the length of
    the envelope, and [Encrypt] seals, whatever the random source. *)
Lemma sixteen_byte_key_accepted :
  len (zeros 16) = 16 /\
  crypto.Decrypt [] (zeros 16) = Val ([], Some ErrNoNonce) /\
  (forall (S : Type) (source : rand.Source S) (w : crypto.World),
     crypto.Encrypt [] (zeros 16) w
     = Val ((drawn 12 w ++ gcm_body (aesgcm_of (zeros 16)) (drawn 12 w) [] [],
             None), after_draw 12 w)) /\
  crypto.Encrypt [] (zeros 16) lcg.world0
  = Val ((unhex "a740708537f62899b6ff7badc1785810a6c16c251af0eef98702eef6", None),
         after_draw 12 lcg.world0) /\
  crypto.Decrypt
    (unhex "a740708537f62899b6ff7badc1785810a6c16c251af0eef98702eef6")
    (zeros 16)
  = Val ([], None).
Proof.
  split; [reflexivity|]. split; [reflexivity|].
  split; [|vm_compute; split; reflexivity].
  intros S source w. apply Encrypt_Val; [reflexivity | vm_compute; discriminate].
Qed.

(** C9.  The key-size check of [Encrypt] and of [Decrypt] accepts keys of
    16, 24 and 32 bytes, which therefore produce no key-size error; the
    error occurs exactly when the key length is outside {16, 24, 32}. *)
Theorem key_size_check_accepts_all_aes_sizes {S : Type} `{rand.Source S}
  (src ct key : list byte) (w : crypto.World) :
  (len key = 16 \/ len key = 24 \/ len key = 32 <->
   Encrypt_key_error src key w = false) /\
  (len key = 16 \/ len key = 24 \/ len key = 32 <->
   Decrypt_key_error ct key = false) /\
  (~ (len key = 16 \/ len key = 24 \/ len key = 32) <->
   Encrypt_key_error src key w = true /\ Decrypt_key_error ct key = true).
Proof.
  rewrite Encrypt_key_error_spec, Decrypt_key_error_spec.
  rewrite negb_true_iff, negb_false_iff, invalid_key_len_cases,
    valid_key_len_cases.
  repeat split; try tauto; lia.
Qed.

(** C10.  In [Decrypt] the key-length check precedes the envelope-length
    check: with a key of invalid length and an envelope shorter than the
    nonce, the key-size error is returned, not [ErrNoNonce]. *)
Theorem key_check_precedes_nonce_check (ct key : list byte) :
  valid_key_len (len key) = false ->
  len ct < 12 ->
  crypto.Decrypt ct key = Val ([], Some (KeySizeError (len key))) /\
  crypto.Decrypt ct key <> Val ([], Some ErrNoNonce).
Proof.
  intros Hk _. rewrite Decrypt_invalid_key by exact Hk.
  split; [reflexivity|discriminate].
Qed.

Lemma key_check_precedes_nonce_check_witness :
  crypto.Decrypt (zeros 3) (zeros 5) = Val ([], Some (KeySizeError (len (zeros 5)))) /\
  crypto.Decrypt (zeros 3) (zeros 5) <> Val ([], Some ErrNoNonce).
Proof.
  apply key_check_precedes_nonce_check; [reflexivity | vm_compute; reflexivity].
Defined.

(** C4.  For every key of accepted length and every input shorter than the
    nonce (12 bytes), the empty input included, [Decrypt] fails with
    [ErrNoNonce] and returns no bytes. *)
Theorem short_envelope_is_malformed (b key : list byte) :
  valid_key_len (len key) = true ->
  len b < 12 ->
  crypto.Decrypt b key = Val ([], Some ErrNoNonce).
Proof.
  intros Hk Hb. rewrite Decrypt_valid_key by exact Hk.
  destruct (Z.ltb_spec (len b) 12) as [_|Hge]; [reflexivity|lia].
Qed.

Lemma short_envelope_is_malformed_witness :
  crypto.Decrypt [] (zeros 32) = Val ([], Some ErrNoNonce) /\
  crypto.Decrypt (zeros 11) (zeros 32) = Val ([], Some ErrNoNonce).
Proof.
  split; apply short_envelope_is_malformed;
    solve [reflexivity | vm_compute; reflexivity].
Defined.

(** ** Random bytes *)



(** ** The envelope *)

(** [Seal] only prepends [dst] to what it would return for a nil [dst]. *)
Lemma Seal_dst (g : cipher.gcm) (dst nonce plaintext data : list byte) :
  cipher.Seal g dst nonce plaintext data
  = match cipher.Seal g [] nonce plaintext data with
    | Val body => Val (dst ++ body)
    | Panic m => Panic m
    end.
Proof.
  unfold cipher.Seal.
  repeat match goal with
         | |- context [if ?c then _ else _] => destruct c
         end; reflexivity.
Qed.

(** C5.  Every envelope [Encrypt] returns is [nonce ++ body]: its first 12
    bytes are the nonce just drawn by [RandBytes 12], the rest is what the
    AEAD's [Seal] yields for that nonce, the plaintext and no associated
    data.  [Decrypt], under the same key, splits any input of at least 12
    bytes at offset 12 into the nonce and the body it hands to [Open]. *)
Theorem envelope_layout {S : Type} `{rand.Source S}
  (w w' : crypto.World) (src key enc : list byte) :
  crypto.Encrypt src key w = Val ((enc, None), w') ->
  crypto.RandBytes 12 w = Val (upto 12 enc, w') /\
  len (upto 12 enc) = 12 /\
  cipher.Seal (aesgcm_of key) [] (upto 12 enc) src [] = Val (from 12 enc) /\
  enc = upto 12 enc ++ from 12 enc /\
  forall ct,
    12 <= len ct ->
    crypto.Decrypt ct key
    = cipher.Open (aesgcm_of key) [] (upto 12 ct) (from 12 ct) [].
Proof.
  intros He.
  destruct (valid_key_len (len key)) eqn:Hk.
  2:{ rewrite Encrypt_invalid_key in He by exact Hk. discriminate. }
  rewrite Encrypt_valid_key in He by exact Hk.
  rewrite Seal_dst in He.
  assert (Hn : len (drawn 12 w) = 12) by (apply len_drawn; lia).
  destruct (cipher.Seal (aesgcm_of key) [] (drawn 12 w) src []) as [body|m] eqn:Es;
    [|discriminate].
  injection He as <- <-.
  rewrite upto_app_eq, from_app_eq by exact Hn.
  repeat split; try assumption.
  - apply RandBytes_Val. lia.
  - intros ct Hc. rewrite Decrypt_valid_key by exact Hk.
    destruct (Z.ltb_spec (len ct) 12) as [Hlt|_]; [lia|reflexivity].
Qed.

Lemma envelope_layout_witness :
  let enc := unhex "a740708537f62899b6ff7bad35d6f1c720ba380abc8311fde2dce06f69fd3ea57a" in
  crypto.RandBytes 12 lcg.world0 = Val (upto 12 enc, after_draw 12 lcg.world0) /\
  len (upto 12 enc) = 12 /\
  cipher.Seal (aesgcm_of (zeros 32)) [] (upto 12 enc) (bytes_of_string "hello") []
  = Val (from 12 enc) /\
  enc = upto 12 enc ++ from 12 enc /\
  forall ct,
    12 <= len ct ->
    crypto.Decrypt ct (zeros 32)
    = cipher.Open (aesgcm_of (zeros 32)) [] (upto 12 ct) (from 12 ct) [].
Proof.
  apply (envelope_layout lcg.world0). vm_compute. reflexivity.
Defined.

(** ** What [Decrypt] accepts *)




(** ** Key derivation *)

Lemma Sum256_length (data : list byte) : length (sha256.Sum256 data) = 32%nat.
Proof.
  unfold sha256.Sum256, sha256.digest_bytes, BigEndian_PutUint32.
  rewrite !length_app, !be_bytes_length. reflexivity.
Qed.

Lemma HMAC_SHA256_length (key msg : list byte) :
  length (RFC8018.HMAC_SHA256 key msg) = 32%nat.
Proof. unfold RFC8018.HMAC_SHA256, hmac.Sum. apply Sum256_length. Qed.

Lemma INT_bytes (i : Z) :
  RFC8018.INT i
  = [z2b (Z.shiftr i 24); z2b (Z.shiftr i 16); z2b (Z.shiftr i 8); z2b i].
Proof. reflexivity. Qed.

Section PBKDF2.

Variable PRF : list byte -> list byte -> list byte.
Variable hLen : nat.
Hypothesis PRF_length : forall P x, length (PRF P x) = hLen.

Variables P S : list byte.

Lemma U_length (i : Z) (j : nat) : length (RFC8018.U PRF P S i j) = hLen.
Proof. destruct j; apply PRF_length. Qed.

Lemma xor_U_length (i : Z) (j : nat) :
  length (RFC8018.xor_U PRF P S i j) = hLen.
Proof.
  induction j as [|j IH]; cbn [RFC8018.xor_U].
  - apply U_length.
  - rewrite xorBytes_length, IH, U_length. apply Nat.min_id.
Qed.

(** The inner loop of [pbkdf2.Key], started at U_(j+1) with the xor of
    U_1 .. U_(j+1), advances both by the number of its iterations. *)
Lemma inner_spec (i : Z) (k : nat) :
  forall j,
    pbkdf2.inner k (PRF P) (RFC8018.U PRF P S i j) (RFC8018.xor_U PRF P S i j)
    = (RFC8018.U PRF P S i (j + k), RFC8018.xor_U PRF P S i (j + k)).
Proof.
  induction k as [|k IH]; intros j; cbn [pbkdf2.inner].
  - rewrite Nat.add_0_r. reflexivity.
  - change (PRF P (RFC8018.U PRF P S i j))
      with (RFC8018.U PRF P S i (Datatypes.S j)).
    change (xorBytes (RFC8018.xor_U PRF P S i j)
              (RFC8018.U PRF P S i (Datatypes.S j)))
      with (RFC8018.xor_U PRF P S i (Datatypes.S j)).
    rewrite IH. rewrite Nat.add_succ_comm. reflexivity.
Qed.

(** The outer loop appends T_block, T_(block+1), ... to [dk]. *)
Lemma blocks_spec (iter : Z) (n : nat) :
  forall b dk,
    pbkdf2.blocks n (PRF P) S iter (Z.of_nat b) dk
    = dk ++ concat (map (fun i => RFC8018.F PRF P S iter (Z.of_nat i)) (seq b n)).
Proof.
  induction n as [|n IH]; intros b dk; cbn [pbkdf2.blocks seq map concat].
  - symmetry. apply app_nil_r.
  - rewrite <- INT_bytes.
    change (PRF P (S ++ RFC8018.INT (Z.of_nat b)))
      with (RFC8018.U PRF P S (Z.of_nat b) 0).
    pose proof (inner_spec (Z.of_nat b) (Z.to_nat (iter - 1)) 0) as Hi.
    cbn [RFC8018.xor_U] in Hi. rewrite Hi. cbn [Nat.add].
    replace (Z.of_nat b + 1) with (Z.of_nat (Datatypes.S b)) by lia.
    rewrite IH, <- app_assoc. reflexivity.
Qed.

Lemma concat_F_length (iter : Z) (n b : nat) :
  length (concat (map (fun i => RFC8018.F PRF P S iter (Z.of_nat i)) (seq b n)))
  = (n * hLen)%nat.
Proof.
  revert b. induction n as [|n IH]; intros b; cbn [seq map concat];
    [reflexivity|].
  rewrite length_app, IH. unfold RFC8018.F. rewrite xor_U_length. lia.
Qed.

End PBKDF2.

(** [pbkdf2.Key] computes PBKDF2 of RFC 8018 with HMAC over the given hash
    as the pseudorandom function, and does not panic. *)
Lemma Key_refines (h : Hash) (pw salt : list byte) (iter keyLen : Z) :
  0 < Hash_Size h ->
  0 <= keyLen ->
  pbkdf2.Key pw salt iter keyLen h
  = Val (RFC8018.PBKDF2 (hmac.Sum h) (Hash_Size h) pw salt iter keyLen).
Proof.
  intros Hh Hk. unfold pbkdf2.Key, RFC8018.PBKDF2.
  rewrite Z.quot_div_nonneg by lia.
  set (q := (keyLen + Hash_Size h - 1) / Hash_Size h).
  assert (Hq : 0 <= q) by (apply Z.div_pos; lia).
  assert (Hcap : keyLen <= q * Hash_Size h).
  { pose proof (Z.div_mod (keyLen + Hash_Size h - 1) (Hash_Size h) ltac:(lia)) as Hd.
    pose proof (Z.mod_pos_bound (keyLen + Hash_Size h - 1) (Hash_Size h) Hh) as Hm.
    fold q in Hd. lia. }
  destruct (Z.ltb_spec (q * Hash_Size h) 0) as [Hlt|_]; [lia|].
  destruct (Z.ltb_spec keyLen 0) as [Hlt|_]; [lia|].
  destruct (Z.ltb_spec (q * Hash_Size h) keyLen) as [Hlt|_]; [lia|].
  cbn [orb].
  pose proof (blocks_spec (hmac.Sum h) pw salt iter (Z.to_nat q) 1 []) as Hb.
  change (Z.of_nat 1) with 1 in Hb. rewrite Hb. reflexivity.
Qed.

Lemma len_F_HMAC_SHA256 (pw salt : list byte) (c i : Z) :
  len (RFC8018.F RFC8018.HMAC_SHA256 pw salt c i) = 32.
Proof.
  unfold len, RFC8018.F.
  rewrite (xor_U_length RFC8018.HMAC_SHA256 32 HMAC_SHA256_length).
  reflexivity.
Qed.

(** With [dkLen = hLen = 32] the derived key is the single block T_1. *)
Lemma PBKDF2_one_block (pw salt : list byte) (c : Z) :
  RFC8018.PBKDF2 RFC8018.HMAC_SHA256 32 pw salt c 32
  = RFC8018.F RFC8018.HMAC_SHA256 pw salt c 1.
Proof.
  unfold RFC8018.PBKDF2.
  change ((32 + 32 - 1) / 32) with 1.
  change (Z.to_nat 1) with 1%nat. cbn [seq map concat].
  rewrite app_nil_r. unfold upto. apply firstn_all2.
  pose proof (len_F_HMAC_SHA256 pw salt c 1) as Hl. unfold len in Hl.
  change (Z.of_nat 1) with 1. lia.
Qed.

Lemma Pbkdf2_Val (pw salt : list byte) :
  crypto.Pbkdf2 pw salt
  = Val (RFC8018.PBKDF2 RFC8018.HMAC_SHA256 32 pw salt 4096 32).
Proof.
  unfold crypto.Pbkdf2. apply (Key_refines sha256_New); reflexivity || lia.
Qed.

(** C6.  For every passphrase and salt, [Pbkdf2] computes PBKDF2 (RFC 8018)
    with HMAC-SHA-256 as its pseudorandom function, exactly 4096 iterations
    and a derived key of exactly 32 bytes (the single block T_1); the three
    parameters are the same constants whatever the caller passes. *)
Theorem Pbkdf2_is_PBKDF2_HMAC_SHA256 (pw salt : list byte) :
  crypto.Pbkdf2 pw salt
  = Val (RFC8018.PBKDF2 RFC8018.HMAC_SHA256 32 pw salt 4096 32) /\
  RFC8018.PBKDF2 RFC8018.HMAC_SHA256 32 pw salt 4096 32
  = RFC8018.F RFC8018.HMAC_SHA256 pw salt 4096 1 /\
  len (RFC8018.PBKDF2 RFC8018.HMAC_SHA256 32 pw salt 4096 32) = 32.
Proof.
  split; [apply Pbkdf2_Val|]. split; [apply PBKDF2_one_block|].
  rewrite PBKDF2_one_block. apply len_F_HMAC_SHA256.
Qed.

(** C7.  [Pbkdf2] is a function of the passphrase and the salt alone (it
    neither reads nor changes the world the other operations share), it
    never panics, and the key it returns has exactly 32 bytes: any two
    calls with the same passphrase and salt return the same key. *)
Theorem Pbkdf2_total_and_deterministic (pw salt : list byte) :
  exists key,
    crypto.Pbkdf2 pw salt = Val key /\
    len key = 32 /\
    forall pw' salt',
      pw' = pw -> salt' = salt -> crypto.Pbkdf2 pw' salt' = Val key.
Proof.
  exists (RFC8018.F RFC8018.HMAC_SHA256 pw salt 4096 1).
  split; [rewrite Pbkdf2_Val, PBKDF2_one_block; reflexivity|].
  split; [apply len_F_HMAC_SHA256|].
  intros pw' salt' -> ->. rewrite Pbkdf2_Val, PBKDF2_one_block. reflexivity.
Qed.

(** * Further properties of the package *)

(** ** The fingerprint *)

(** X1.  [Sha256] returns exactly 32 bytes, whatever the data. *)
Theorem Sha256_length (data : list byte) : len (crypto.Sha256 data) = 32.
Proof.
  unfold crypto.Sha256, len. rewrite Sum256_length. reflexivity.
Qed.

(** ** What [Encrypt] returns *)

(** What [Seal] returns for a nil [dst], when it returns, is the sealed
    body. *)
Lemma Seal_nil_Val_inv (key nonce plaintext data body : list byte) :
  cipher.Seal (aesgcm_of key) [] nonce plaintext data = Val body ->
  body = gcm_body (aesgcm_of key) nonce plaintext data.
Proof.
  unfold cipher.Seal.
  destruct (negb (len nonce =? cipher.nonceSize (aesgcm_of key)));
    [discriminate|].
  destruct (uint64 (len plaintext) >? _); [discriminate|].
  intros E. injection E as <-.
  change (cipher.tagSize (aesgcm_of key)) with 16.
  rewrite (upto_tag (aesgcm_of key)) by apply aesgcm_block16.
  reflexivity.
Qed.

Section Envelopes.

Context {S : Type} `{rand.Source S}.

(** An envelope returned by [Encrypt] tells that the key was accepted,
    which bytes were drawn and what the world is afterwards. *)
Lemma Encrypt_Val_inv (w w' : crypto.World) (src key enc : list byte) :
  crypto.Encrypt src key w = Val ((enc, None), w') ->
  valid_key_len (len key) = true /\
  w' = after_draw 12 w /\
  enc = drawn 12 w ++ gcm_body (aesgcm_of key) (drawn 12 w) src [].
Proof.
  intros He.
  destruct (valid_key_len (len key)) eqn:Hk.
  2:{ rewrite Encrypt_invalid_key in He by exact Hk. discriminate. }
  rewrite Encrypt_valid_key in He by exact Hk.
  rewrite Seal_dst in He.
  destruct (cipher.Seal (aesgcm_of key) [] (drawn 12 w) src []) as [body|m] eqn:Es;
    [|discriminate].
  apply Seal_nil_Val_inv in Es. injection He as <- <-.
  rewrite Es. repeat split.
Qed.

(** X2.  Every envelope [Encrypt] returns is 28 bytes longer than the
    plaintext: 12 bytes of nonce in front, 16 bytes of tag behind. *)
Theorem Encrypt_envelope_length (w w' : crypto.World) (src key enc : list byte) :
  crypto.Encrypt src key w = Val ((enc, None), w') ->
  len enc = len src + 28.
Proof.
  intros He. apply Encrypt_Val_inv in He. destruct He as [_ [_ ->]].
  rewrite len_app, (len_gcm_body (aesgcm_of key) (aesgcm_block16 key)).
  rewrite len_drawn by lia. lia.
Qed.

(** X3.  [Encrypt] has three outcomes and no other: the key-size error
    with no bytes and the world untouched, when the key has none of the
    lengths 16, 24, 32; a panic, when the key is accepted and the plaintext
    exceeds 2^36 - 32 bytes; and otherwise an envelope with no error, after
    exactly 12 random bytes were drawn. *)
Theorem Encrypt_outcomes (w : crypto.World) (src key : list byte) :
  len src < 2 ^ 63 ->
  (valid_key_len (len key) = false /\
   crypto.Encrypt src key w = Val (([], Some (KeySizeError (len key))), w)) \/
  (valid_key_len (len key) = true /\ gcm_max_plaintext < len src /\
   crypto.Encrypt src key w = Panic "crypto/cipher: message too large for GCM") \/
  (valid_key_len (len key) = true /\ len src <= gcm_max_plaintext /\
   exists enc,
     crypto.Encrypt src key w = Val ((enc, None), after_draw 12 w) /\
     crypto.RandBytes 12 w = Val (upto 12 enc, after_draw 12 w)).
Proof.
  intros Hs. destruct (valid_key_len (len key)) eqn:Hk.
  - right. destruct (Z_le_gt_dec (len src) gcm_max_plaintext) as [Hle|Hgt].
    + right. split; [reflexivity|]. split; [exact Hle|].
      exists (drawn 12 w ++ gcm_body (aesgcm_of key) (drawn 12 w) src []).
      split; [apply Encrypt_Val; assumption|].
      rewrite upto_app_eq by (apply len_drawn; lia).
      apply RandBytes_Val. lia.
    + left. split; [reflexivity|]. split; [lia|].
      apply Encrypt_too_large; [exact Hk|lia].
  - left. split; [reflexivity|]. apply Encrypt_invalid_key. exact Hk.
Qed.

End Envelopes.

Lemma Encrypt_envelope_length_witness :
  len (unhex "a740708537f62899b6ff7bad35d6f1c720ba380abc8311fde2dce06f69fd3ea57a")
  = len (bytes_of_string "hello") + 28.
Proof.
  apply (Encrypt_envelope_length lcg.world0 (after_draw 12 lcg.world0)
           (bytes_of_string "hello") (zeros 32)).
  vm_compute. reflexivity.
Defined.

Lemma Encrypt_outcomes_witness :
  (valid_key_len (len (zeros 7)) = false /\
   crypto.Encrypt [x01] (zeros 7) lcg.world0
   = Val (([], Some (KeySizeError (len (zeros 7)))), lcg.world0)) \/
  (valid_key_len (len (zeros 7)) = true /\ gcm_max_plaintext < len [x01] /\
   crypto.Encrypt [x01] (zeros 7) lcg.world0
   = Panic "crypto/cipher: message too large for GCM") \/
  (valid_key_len (len (zeros 7)) = true /\ len [x01] <= gcm_max_plaintext /\
   exists enc,
     crypto.Encrypt [x01] (zeros 7) lcg.world0
     = Val ((enc, None), after_draw 12 lcg.world0) /\
     crypto.RandBytes 12 lcg.world0 = Val (upto 12 enc, after_draw 12 lcg.world0)).
Proof.
  apply Encrypt_outcomes. vm_compute. reflexivity.
Defined.

(** ** What [Decrypt] returns *)

(** [Open] under the AEAD of a key, on a nonce of 12 bytes: an
    authentication failure with no bytes, or a plaintext 16 bytes shorter
    than its input. *)
Lemma Open_aesgcm_shape (key nonce ct data : list byte) :
  len nonce = 12 ->
  cipher.Open (aesgcm_of key) [] nonce ct data = Val ([], Some errOpen) \/
  exists p,
    cipher.Open (aesgcm_of key) [] nonce ct data = Val (p, None) /\
    16 <= len ct /\ len p = len ct - 16.
Proof.
  intros Hn. unfold cipher.Open.
  change (cipher.nonceSize (aesgcm_of key)) with 12.
  change (cipher.tagSize (aesgcm_of key)) with 16.
  rewrite Hn. cbn [Z.eqb Pos.eqb negb].
  change (16 <? cipher.gcmMinimumTagSize) with false. cbv iota.
  destruct (Z.ltb_spec (len ct) 16) as [Hlt|Hge]; [left; reflexivity|].
  destruct (uint64 (len ct) >? _); [left; reflexivity|].
  destruct (negb _); [left; reflexivity|].
  right. eexists. split; [reflexivity|]. split; [exact Hge|].
  cbn [app].
  rewrite (len_counterCrypt (aesgcm_of key) (aesgcm_block16 key)).
  pose proof (len_nonneg ct). apply len_upto. lia.
Qed.

(** X4.  [Decrypt] never panics and never returns bytes together with an
    error.  It returns the key-size error when the key has none of the
    lengths 16, 24, 32; else [ErrNoNonce] when the input has fewer than 12
    bytes; else either the authentication error, or a plaintext exactly 28
    bytes shorter than the input. *)
Theorem Decrypt_outcomes (ct key : list byte) :
  (valid_key_len (len key) = false /\
   crypto.Decrypt ct key = Val ([], Some (KeySizeError (len key)))) \/
  (valid_key_len (len key) = true /\ len ct < 12 /\
   crypto.Decrypt ct key = Val ([], Some ErrNoNonce)) \/
  (valid_key_len (len key) = true /\ 12 <= len ct /\
   crypto.Decrypt ct key = Val ([], Some errOpen)) \/
  (valid_key_len (len key) = true /\ 28 <= len ct /\
   exists p, crypto.Decrypt ct key = Val (p, None) /\ len p = len ct - 28).
Proof.
  destruct (valid_key_len (len key)) eqn:Hk.
  2:{ left. split; [reflexivity|]. apply Decrypt_invalid_key. exact Hk. }
  right. rewrite Decrypt_valid_key by exact Hk.
  destruct (Z.ltb_spec (len ct) 12) as [Hlt|Hge].
  { left. repeat split. exact Hlt. }
  right.
  assert (Hn : len (upto 12 ct) = 12) by (apply len_upto; lia).
  assert (Hb : len (from 12 ct) = len ct - 12) by (apply len_from; lia).
  destruct (Open_aesgcm_shape key (upto 12 ct) (from 12 ct) [] Hn)
    as [E|[p [E [H16 Hp]]]]; rewrite E.
  - left. repeat split. exact Hge.
  - right. split; [reflexivity|]. split; [lia|].
    exists p. split; [reflexivity|lia].
Qed.

(** X5.  An input of 12 to 27 bytes has room for the nonce but not for
    the tag: with an accepted key [Decrypt] fails with the authentication
    error, not with [ErrNoNonce]. *)
Theorem nonce_without_tag_fails_authentication (ct key : list byte) :
  valid_key_len (len key) = true ->
  12 <= len ct < 28 ->
  crypto.Decrypt ct key = Val ([], Some errOpen).
Proof.
  intros Hk Hc. rewrite Decrypt_valid_key by exact Hk.
  destruct (Z.ltb_spec (len ct) 12) as [Hlt|_]; [lia|].
  assert (Hn : len (upto 12 ct) = 12) by (apply len_upto; lia).
  assert (Hb : len (from 12 ct) = len ct - 12) by (apply len_from; lia).
  destruct (Open_aesgcm_shape key (upto 12 ct) (from 12 ct) [] Hn)
    as [E|[p [_ [H16 _]]]]; [exact E|lia].
Qed.

Lemma nonce_without_tag_fails_authentication_witness :
  crypto.Decrypt (zeros 12) (zeros 32) = Val ([], Some errOpen) /\
  crypto.Decrypt (zeros 27) (zeros 16) = Val ([], Some errOpen).
Proof.
  split; apply nonce_without_tag_fails_authentication;
    solve [reflexivity | vm_compute; split; [discriminate | reflexivity]].
Defined.

(** [Open] rejects a body whose last 16 bytes are not the tag of what
    precedes them. *)
Lemma Open_wrong_tag (key nonce p data tag' : list byte) :
  len nonce = 12 ->
  len p <= gcm_max_plaintext ->
  len tag' = 16 ->
  let counter := cipher.deriveCounter (aesgcm_of key) nonce in
  let tagMask := aes.Block_Encrypt (cipher.cipher_ (aesgcm_of key)) counter in
  let out := cipher.counterCrypt (aesgcm_of key) p (cipher.gcmInc32 counter) in
  tag' <> cipher.auth (aesgcm_of key) out data tagMask ->
  cipher.Open (aesgcm_of key) [] nonce (out ++ tag') data
  = Val ([], Some errOpen).
Proof.
  intros Hn Hp Ht counter tagMask out Hneq.
  assert (Ho : len out = len p)
    by apply (len_counterCrypt (aesgcm_of key) (aesgcm_block16 key)).
  unfold cipher.Open, gcm_max_plaintext in *.
  change (cipher.nonceSize (aesgcm_of key)) with 12.
  change (cipher.tagSize (aesgcm_of key)) with 16.
  change (aes.Block_BlockSize (cipher.cipher_ (aesgcm_of key))) with 16.
  rewrite Hn. cbn [Z.eqb Pos.eqb negb].
  change (16 <? cipher.gcmMinimumTagSize) with false. cbv iota.
  rewrite len_app, Ho, Ht.
  pose proof (len_nonneg p) as H0.
  destruct (Z.ltb_spec (len p + 16) 16) as [Hlt|_]; [reflexivity|].
  rewrite uint64_small by lia. change (uint64 16) with 16.
  destruct (Z.gtb_spec (len p + 16) ((2 ^ 32 - 2) * 16 + 16)) as [Hgt|_];
    [reflexivity|].
  replace (len p + 16 - 16) with (len p) by lia.
  rewrite upto_app_eq, from_app_eq by exact Ho.
  fold counter. fold tagMask.
  rewrite (upto_tag (aesgcm_of key)) by apply aesgcm_block16.
  destruct (Z.eqb_spec
              (subtle.ConstantTimeCompare
                 (cipher.auth (aesgcm_of key) out data tagMask) tag') 1)
    as [E|_]; [|reflexivity].
  apply ConstantTimeCompare_1 in E. congruence.
Qed.

(** [Decrypt] of a sealed envelope, whatever nonce it starts with. *)
Lemma Decrypt_envelope (key nonce p : list byte) :
  valid_key_len (len key) = true ->
  len nonce = 12 ->
  len p <= gcm_max_plaintext ->
  crypto.Decrypt (nonce ++ gcm_body (aesgcm_of key) nonce p []) key
  = Val (p, None).
Proof.
  intros Hk Hn Hp. rewrite Decrypt_valid_key by exact Hk.
  rewrite len_app, Hn.
  pose proof (len_nonneg (gcm_body (aesgcm_of key) nonce p [])) as H0.
  destruct (Z.ltb_spec (12 + len (gcm_body (aesgcm_of key) nonce p [])) 12)
    as [Hlt|_]; [lia|].
  rewrite upto_app_eq, from_app_eq by exact Hn.
  apply (Open_gcm_body (aesgcm_of key) (aesgcm_block16 key) eq_refl eq_refl eq_refl);
    assumption.
Qed.

(** ** Envelopes under one key *)

Section Tampering.

Context {S : Type} `{rand.Source S}.

(** X6.  An envelope whose tag was altered is rejected: if the last 16
    bytes of an envelope returned by [Encrypt] are replaced by any 16 other
    bytes, [Decrypt] under the same key fails with the authentication error
    and returns no bytes. *)
Theorem altered_tag_rejected
  (w w' : crypto.World) (src key enc tag' : list byte) :
  crypto.Encrypt src key w = Val ((enc, None), w') ->
  len src <= gcm_max_plaintext ->
  len tag' = 16 ->
  tag' <> from (len enc - 16) enc ->
  crypto.Decrypt (upto (len enc - 16) enc ++ tag') key = Val ([], Some errOpen).
Proof.
  intros He Hs Ht Hneq.
  apply Encrypt_Val_inv in He. destruct He as [Hk [_ ->]].
  set (g := aesgcm_of key) in *. set (nonce := drawn 12 w) in *.
  assert (Hn : len nonce = 12) by (apply len_drawn; lia).
  unfold gcm_body in *.
  set (counter := cipher.deriveCounter g nonce) in *.
  set (tagMask := aes.Block_Encrypt (cipher.cipher_ g) counter) in *.
  set (out := cipher.counterCrypt g src (cipher.gcmInc32 counter)) in *.
  set (tag := cipher.auth g out [] tagMask) in *.
  assert (Ho : len out = len src)
    by apply (len_counterCrypt (aesgcm_of key) (aesgcm_block16 key)).
  assert (Hl : len tag = 16).
  { unfold len, tag. rewrite auth_length by apply aesgcm_block16. reflexivity. }
  assert (Hsplit : len (nonce ++ out ++ tag) - 16 = len (nonce ++ out)).
  { rewrite !len_app. lia. }
  rewrite Hsplit in *. rewrite app_assoc in *.
  rewrite upto_app_len. rewrite from_app_len in Hneq.
  rewrite <- app_assoc.
  rewrite Decrypt_valid_key by exact Hk.
  rewrite len_app, Hn.
  pose proof (len_nonneg (out ++ tag')) as H0.
  destruct (Z.ltb_spec (12 + len (out ++ tag')) 12) as [Hlt|_]; [lia|].
  rewrite upto_app_eq, from_app_eq by exact Hn.
  apply (Open_wrong_tag key nonce src [] tag'); assumption.
Qed.

(** X7.  An envelope belongs to one plaintext only: if [Encrypt] returns
    the same envelope for two plaintexts under the same key, in whatever
    states of the random source, the two plaintexts are equal. *)
Theorem envelope_determines_plaintext
  (w1 w1' w2 w2' : crypto.World) (p1 p2 key enc : list byte) :
  crypto.Encrypt p1 key w1 = Val ((enc, None), w1') ->
  crypto.Encrypt p2 key w2 = Val ((enc, None), w2') ->
  p1 = p2.
Proof.
  intros H1 H2.
  apply Encrypt_Val_inv in H1. destruct H1 as [_ [_ E1]].
  apply Encrypt_Val_inv in H2. destruct H2 as [_ [_ E2]].
  assert (Hn1 : len (drawn 12 w1) = 12) by (apply len_drawn; lia).
  assert (Hn2 : len (drawn 12 w2) = 12) by (apply len_drawn; lia).
  assert (Hnonce : drawn 12 w1 = drawn 12 w2).
  { rewrite <- (upto_app_eq 12 (drawn 12 w1)
                  (gcm_body (aesgcm_of key) (drawn 12 w1) p1 []) Hn1).
    rewrite <- E1, E2. apply upto_app_eq. exact Hn2. }
  assert (Hbody : gcm_body (aesgcm_of key) (drawn 12 w1) p1 []
                  = gcm_body (aesgcm_of key) (drawn 12 w1) p2 []).
  { rewrite <- (from_app_eq 12 (drawn 12 w1)
                  (gcm_body (aesgcm_of key) (drawn 12 w1) p1 []) Hn1).
    rewrite <- E1, E2, Hnonce. apply from_app_eq. rewrite <- Hnonce. exact Hn1. }
  pose proof (len_gcm_body (aesgcm_of key) (aesgcm_block16 key)
                (drawn 12 w1) p1 []) as L1.
  pose proof (len_gcm_body (aesgcm_of key) (aesgcm_block16 key)
                (drawn 12 w1) p2 []) as L2.
  rewrite Hbody in L1. assert (Hlen : len p1 = len p2) by lia.
  unfold gcm_body in Hbody.
  set (counter := cipher.gcmInc32
                    (cipher.deriveCounter (aesgcm_of key) (drawn 12 w1))) in *.
  assert (Hout : cipher.counterCrypt (aesgcm_of key) p1 counter
                 = cipher.counterCrypt (aesgcm_of key) p2 counter).
  { apply (f_equal (upto (len p1))) in Hbody.
    rewrite upto_app_eq in Hbody
      by apply (len_counterCrypt (aesgcm_of key) (aesgcm_block16 key)).
    rewrite Hlen in Hbody.
    rewrite upto_app_eq in Hbody
      by apply (len_counterCrypt (aesgcm_of key) (aesgcm_block16 key)).
    exact Hbody. }
  rewrite <- (counterCrypt_twice (aesgcm_of key) (aesgcm_block16 key) p1 counter).
  rewrite Hout.
  apply (counterCrypt_twice (aesgcm_of key) (aesgcm_block16 key)).
Qed.

End Tampering.

Lemma altered_tag_rejected_witness :
  crypto.Decrypt
    (upto (len (unhex "a740708537f62899b6ff7bad35d6f1c720ba380abc8311fde2dce06f69fd3ea57a") - 16)
       (unhex "a740708537f62899b6ff7bad35d6f1c720ba380abc8311fde2dce06f69fd3ea57a")
     ++ zeros 16)
    (zeros 32)
  = Val ([], Some errOpen).
Proof.
  apply (altered_tag_rejected lcg.world0 (after_draw 12 lcg.world0)
           (bytes_of_string "hello")).
  - vm_compute. reflexivity.
  - vm_compute. discriminate.
  - reflexivity.
  - vm_compute. discriminate.
Defined.

Lemma envelope_determines_plaintext_witness :
  bytes_of_string "hello" = unhex "68656c6c6f".
Proof.
  apply (envelope_determines_plaintext
           lcg.world0 (after_draw 12 lcg.world0)
           lcg.world0 (after_draw 12 lcg.world0)
           (bytes_of_string "hello") (unhex "68656c6c6f") (zeros 32)
           (unhex "a740708537f62899b6ff7bad35d6f1c720ba380abc8311fde2dce06f69fd3ea57a"));
    vm_compute; reflexivity.
Defined.

(** ** The stream of random bytes *)

Lemma zeros_add (n m : Z) :
  0 <= n -> 0 <= m -> zeros (n + m) = zeros n ++ zeros m.
Proof.
  intros Hn Hm. unfold zeros. rewrite Z2Nat.inj_add by assumption.
  apply repeat_app.
Qed.

Section Stream.

Context {S : Type} `{rand.Source S}.

(** Reading into two slices one after the other is reading into their
    concatenation. *)
Lemma read_app (p1 p2 : list byte) :
  forall s val pos,
    rand.read (p1 ++ p2) s val pos
    = let '(r1, (s1, v1, q1)) := rand.read p1 s val pos in
      let '(r2, st) := rand.read p2 s1 v1 q1 in
      (r1 ++ r2, st).
Proof.
  induction p1 as [|b p1 IH]; intros s val pos.
  - cbn [app rand.read]. destruct (rand.read p2 s val pos). reflexivity.
  - cbn [app rand.read].
    destruct (pos =? 0); [destruct (rand.Int63 s) as [v s']|].
    + rewrite IH.
      destruct (rand.read p1 s' (Z.shiftr v 8) (7 - 1)) as [r1 [[s1 v1] q1]].
      destruct (rand.read p2 s1 v1 q1) as [r2 st]. reflexivity.
    + rewrite IH.
      destruct (rand.read p1 s (Z.shiftr val 8) (pos - 1)) as [r1 [[s1 v1] q1]].
      destruct (rand.read p2 s1 v1 q1) as [r2 st]. reflexivity.
Qed.

Lemma Rand_Read_app (r : rand.Rand S) (p1 p2 : list byte) :
  rand.Rand_Read r (p1 ++ p2)
  = (fst (rand.Rand_Read r p1)
       ++ fst (rand.Rand_Read (snd (rand.Rand_Read r p1)) p2),
     snd (rand.Rand_Read (snd (rand.Rand_Read r p1)) p2)).
Proof.
  unfold rand.Rand_Read. rewrite read_app.
  destruct (rand.read p1 (rand.src r) (rand.readVal r) (rand.readPos r))
    as [r1 [[s1 v1] q1]].
  cbn [fst snd rand.src rand.readVal rand.readPos].
  destruct (rand.read p2 s1 v1 q1) as [r2 [[s2 v2] q2]]. reflexivity.
Qed.

Lemma setSeed_seeded (w : crypto.World) : crypto.setSeed (seeded w) = true.
Proof. unfold seeded. destruct (crypto.setSeed w) eqn:E; [exact E|reflexivity]. Qed.

Lemma seeded_after_draw (n : Z) (w : crypto.World) :
  seeded (after_draw n w) = after_draw n w.
Proof.
  unfold seeded at 1. unfold after_draw at 1.
  cbn [crypto.setSeed]. rewrite setSeed_seeded. reflexivity.
Qed.

Lemma drawn_add (n m : Z) (w : crypto.World) :
  0 <= n -> 0 <= m ->
  drawn (n + m) w = drawn n w ++ drawn m (after_draw n w) /\
  after_draw (n + m) w = after_draw m (after_draw n w).
Proof.
  intros Hn Hm.
  pose proof (seeded_after_draw n w) as Hs.
  unfold drawn, after_draw in *. rewrite Hs.
  cbn [crypto.globalRand crypto.setSeed crypto.clock].
  rewrite zeros_add by assumption.
  rewrite Rand_Read_app. cbn [fst snd]. split; reflexivity.
Qed.


(** X9.  [RandBytes] panics on a negative length, in every state of the
    generator: there is no slice of negative length to fill. *)
Theorem RandBytes_negative_panics (n : Z) (w : crypto.World) :
  n < 0 ->
  crypto.RandBytes n w = Panic "runtime error: makeslice: len out of range" /\
  forall b w', crypto.RandBytes n w <> Val (b, w').
Proof.
  intros Hn.
  assert (E : crypto.RandBytes n w
              = Panic "runtime error: makeslice: len out of range").
  { unfold crypto.RandBytes, crypto.bind, crypto.setSeed_Do, crypto.lift,
      crypto.make.
    destruct (Z.ltb_spec n 0) as [_|Hge]; [|lia].
    destruct (crypto.setSeed w); reflexivity. }
  split; [exact E|]. intros b w'. rewrite E. discriminate.
Qed.


End Stream.


Lemma RandBytes_negative_panics_witness :
  crypto.RandBytes (-1) lcg.world0
  = Panic "runtime error: makeslice: len out of range" /\
  forall b w', crypto.RandBytes (-1) lcg.world0 <> Val (b, w').
Proof.
  apply RandBytes_negative_panics. reflexivity.
Defined.


(** ** How the operations compose *)

Section Composition.

Context {S : Type} `{rand.Source S}.

(** X11.  Two successive calls of [Encrypt] take their nonces one after
    the other from the stream of [RandBytes]: the two nonces, put end to
    end, are the 24 bytes a single [RandBytes 24] returns from the first
    state, and the generator is left in the same state. *)
Theorem successive_nonces
  (w w1 w2 : crypto.World) (p1 p2 k1 k2 e1 e2 : list byte) :
  crypto.Encrypt p1 k1 w = Val ((e1, None), w1) ->
  crypto.Encrypt p2 k2 w1 = Val ((e2, None), w2) ->
  crypto.RandBytes 24 w = Val (upto 12 e1 ++ upto 12 e2, w2).
Proof.
  intros H1 H2.
  apply Encrypt_Val_inv in H1. destruct H1 as [_ [-> ->]].
  apply Encrypt_Val_inv in H2. destruct H2 as [_ [-> ->]].
  rewrite !upto_app_eq by (apply len_drawn; lia).
  destruct (drawn_add 12 12 w) as [Ed Ea]; [lia|lia|].
  change (12 + 12) with 24 in *.
  rewrite RandBytes_Val by lia. rewrite Ed, Ea. reflexivity.
Qed.

(** X12.  A key derived by [Pbkdf2] is always one the cipher accepts:
    for every passphrase, salt and plaintext within GCM's limit, [Encrypt]
    under the derived key returns an envelope, and [Decrypt] under that
    key returns the plaintext. *)
Theorem derived_key_round_trip
  (w : crypto.World) (pw salt p : list byte) :
  len p <= gcm_max_plaintext ->
  exists key enc w',
    crypto.Pbkdf2 pw salt = Val key /\
    valid_key_len (len key) = true /\
    crypto.Encrypt p key w = Val ((enc, None), w') /\
    crypto.Decrypt enc key = Val (p, None).
Proof.
  intros Hp.
  set (key := RFC8018.F RFC8018.HMAC_SHA256 pw salt 4096 1).
  assert (Ek : crypto.Pbkdf2 pw salt = Val key)
    by (rewrite Pbkdf2_Val, PBKDF2_one_block; reflexivity).
  assert (Hk : valid_key_len (len key) = true).
  { unfold key. rewrite len_F_HMAC_SHA256. reflexivity. }
  exists key, (drawn 12 w ++ gcm_body (aesgcm_of key) (drawn 12 w) p []),
    (after_draw 12 w).
  split; [exact Ek|]. split; [exact Hk|].
  split; [apply Encrypt_Val; assumption|].
  apply Decrypt_envelope; [exact Hk| |exact Hp].
  apply len_drawn. lia.
Qed.

End Composition.

Lemma successive_nonces_witness :
  crypto.RandBytes 24 lcg.world0
  = Val (upto 12 (drawn 12 lcg.world0 ++ gcm_body (aesgcm_of (zeros 32)) (drawn 12 lcg.world0) [] [])
         ++ upto 12 (drawn 12 (after_draw 12 lcg.world0)
                     ++ gcm_body (aesgcm_of (zeros 16))
                          (drawn 12 (after_draw 12 lcg.world0)) [x01] []),
         after_draw 12 (after_draw 12 lcg.world0)).
Proof.
  apply (successive_nonces lcg.world0 (after_draw 12 lcg.world0)
           (after_draw 12 (after_draw 12 lcg.world0)) [] [x01] (zeros 32) (zeros 16));
    apply Encrypt_Val; solve [reflexivity | vm_compute; discriminate].
Defined.

Lemma derived_key_round_trip_witness :
  exists key enc w',
    crypto.Pbkdf2 (bytes_of_string "password") (bytes_of_string "salt") = Val key /\
    valid_key_len (len key) = true /\
    crypto.Encrypt (bytes_of_string "hello") key lcg.world0 = Val ((enc, None), w') /\
    crypto.Decrypt enc key = Val (bytes_of_string "hello", None).
Proof.
  apply derived_key_round_trip. vm_compute. discriminate.
Defined.

(** ** The wrappers that read the key *)

Section Wrappers.

Context {FS : Type} `{dir.Store FS} {S : Type} `{rand.Source S}.

(** X13.  Without a usable key the wrappers do nothing: when [dir.Key]
    fails, both return its error and no bytes; when it returns a key whose
    length is none of 16, 24, 32, both return the key-size error of that
    length and no bytes.  In either case [EncryptWithKey] draws no random
    bytes. *)
Theorem wrappers_need_a_usable_key
  (src ct : list byte) (fs : FS) (w : crypto.World) :
  (forall k err,
     dir.Key fs = (k, Some err) ->
     crypto.EncryptWithKey src fs w = Val (([], Some (crypto.dirError err)), w) /\
     crypto.DecryptWithKey ct fs = Val ([], Some (crypto.dirError err))) /\
  (forall k,
     dir.Key fs = (k, None) ->
     valid_key_len (len k) = false ->
     crypto.EncryptWithKey src fs w
     = Val (([], Some (crypto.cryptoError (KeySizeError (len k)))), w) /\
     crypto.DecryptWithKey ct fs
     = Val ([], Some (crypto.cryptoError (KeySizeError (len k))))).
Proof.
  split.
  - intros k err E. unfold crypto.EncryptWithKey, crypto.DecryptWithKey.
    rewrite E. split; reflexivity.
  - intros k E Hk. unfold crypto.EncryptWithKey, crypto.DecryptWithKey.
    rewrite E. unfold crypto.bind.
    rewrite Encrypt_invalid_key by exact Hk.
    rewrite Decrypt_invalid_key by exact Hk.
    split; reflexivity.
Qed.

(** X14.  With a key of accepted length in the key root file, what
    [EncryptWithKey] seals [DecryptWithKey] opens: for every plaintext
    within GCM's limit the first returns an envelope and no error, and the
    second returns the plaintext from it. *)
Theorem DecryptWithKey_EncryptWithKey
  (p key : list byte) (fs : FS) (w : crypto.World) :
  dir.Key fs = (key, None) ->
  valid_key_len (len key) = true ->
  len p <= gcm_max_plaintext ->
  exists enc w',
    crypto.EncryptWithKey p fs w = Val ((enc, None), w') /\
    crypto.DecryptWithKey enc fs = Val (p, None) /\
    crypto.Encrypt p key w = Val ((enc, None), w').
Proof.
  intros E Hk Hp.
  exists (drawn 12 w ++ gcm_body (aesgcm_of key) (drawn 12 w) p []),
    (after_draw 12 w).
  unfold crypto.EncryptWithKey, crypto.DecryptWithKey. rewrite E.
  unfold crypto.bind. rewrite Encrypt_Val by assumption.
  rewrite Decrypt_envelope; [|exact Hk|apply len_drawn; lia|exact Hp].
  repeat split.
Qed.

(** X15.  After [logout] in a logged-in state the key root file holds the
    empty key, and "Logged out." is printed.  If reading the file then
    either fails or returns the empty key just written, both wrappers
    return an error and no bytes, and [EncryptWithKey] draws no random
    bytes: the stored secrets stay closed until a key is written again. *)
Theorem logout_closes_the_store
  (fs : FS) (out : list cmd.event) (src ct : list byte) (w : crypto.World) :
  dir.KeyExists fs = true ->
  (snd (dir.Key (dir.WriteKey [] fs)) = None ->
   fst (dir.Key (dir.WriteKey [] fs)) = []) ->
  fst (cmd.logout fs out) = dir.WriteKey [] fs /\
  snd (cmd.logout fs out) = out ++ [cmd.Println "Logged out."] /\
  exists e,
    crypto.EncryptWithKey src (fst (cmd.logout fs out)) w = Val (([], Some e), w) /\
    crypto.DecryptWithKey ct (fst (cmd.logout fs out)) = Val ([], Some e).
Proof.
  intros Hin Hread. unfold cmd.logout. rewrite Hin. cbn [fst snd].
  split; [reflexivity|]. split; [reflexivity|].
  unfold crypto.EncryptWithKey, crypto.DecryptWithKey.
  destruct (dir.Key (dir.WriteKey [] fs)) as [k [err|]] eqn:E.
  - exists (crypto.dirError err). split; reflexivity.
  - cbn [fst snd] in Hread. rewrite (Hread eq_refl).
    exists (crypto.cryptoError (KeySizeError 0)).
    unfold crypto.bind.
    rewrite Encrypt_invalid_key, Decrypt_invalid_key by reflexivity.
    split; reflexivity.
Qed.

End Wrappers.

Lemma DecryptWithKey_EncryptWithKey_witness :
  exists enc w',
    crypto.EncryptWithKey (bytes_of_string "hello") (zeros 32) lcg.world0
    = Val ((enc, None), w') /\
    crypto.DecryptWithKey enc (zeros 32) = Val (bytes_of_string "hello", None) /\
    crypto.Encrypt (bytes_of_string "hello") (zeros 32) lcg.world0
    = Val ((enc, None), w').
Proof.
  apply (DecryptWithKey_EncryptWithKey (bytes_of_string "hello") (zeros 32) (zeros 32));
    solve [reflexivity | vm_compute; discriminate].
Defined.

Lemma logout_closes_the_store_witness :
  fst (cmd.logout (zeros 32) []) = dir.WriteKey [] (zeros 32) /\
  snd (cmd.logout (zeros 32) []) = [] ++ [cmd.Println "Logged out."] /\
  exists e,
    crypto.EncryptWithKey [x01] (fst (cmd.logout (zeros 32) [])) lcg.world0
    = Val (([], Some e), lcg.world0) /\
    crypto.DecryptWithKey (zeros 40) (fst (cmd.logout (zeros 32) []))
    = Val ([], Some e).
Proof.
  apply logout_closes_the_store; [reflexivity | vm_compute; discriminate].
Defined.
